(** * AgenticAIWorkflows: chunker, content index and orchestrator

    A shallow embedding of [content_processor.py] (ContentProcessor,
    ContentIndex) and [orchestrator.py] (AgenticOrchestrator), with the
    properties of the query-routing and content-retrieval core stated
    and settled against it.

    Conventions.
    - Python [int] is [Z]; Python [float] scores are exact multiples of
      one half and are kept in [Q].
    - Text processed character by character ([content], [query]) is a
      [list ascii]: code points below 256, with [str.isspace],
      [str.lower] and the regex class [\w] as Python defines them on
      that range.  Identifiers used as dictionary keys are [string].
    - A Python [dict] is a [gmap]; a [set] is a [gset].
    - A [while] loop is a fuel-indexed [Fixpoint] returning [option];
      running out of fuel is [None]. *)

From Stdlib Require Import ZArith QArith Ascii String List Lia.
From stdpp Require Import base tactics option list gmap strings pretty sorting.

#[local] Open Scope Z_scope.

(** ** Python built-ins used by the source *)

Module Py.

Abbreviation str := (list ascii).

Definition lit (s : string) : str := list_ascii_of_string s.

Definition len {A} (l : list A) : Z := Z.of_nat (length l).

(** Index normalisation of a slice bound against a length:
    negative bounds count from the end, everything is clipped. *)
Definition adjust (i n : Z) : Z :=
  if i <? 0 then Z.max (i + n) 0 else Z.min i n.

(** [l[lo:hi]] *)
Definition slice {A} (l : list A) (lo hi : Z) : list A :=
  let lo' := adjust lo (len l) in
  let hi' := adjust hi (len l) in
  take (Z.to_nat (hi' - lo')) (drop (Z.to_nat lo') l).

(** [l[:hi]] *)
Definition slice_to {A} (l : list A) (hi : Z) : list A := slice l 0 hi.

Definition code (c : ascii) : Z := Z.of_nat (nat_of_ascii c).

(** [str.isspace] on one character. *)
Definition isspace (c : ascii) : bool :=
  let n := code c in
  ((9 <=? n) && (n <=? 13)) || ((28 <=? n) && (n <=? 32))
  || (n =? 133) || (n =? 160).

(** The regex class [\w] (alphanumerics and underscore). *)
Definition isword (c : ascii) : bool :=
  let n := code c in
  ((48 <=? n) && (n <=? 57)) || ((65 <=? n) && (n <=? 90))
  || (n =? 95) || ((97 <=? n) && (n <=? 122))
  || (n =? 170) || (n =? 178) || (n =? 179) || (n =? 181)
  || (n =? 185) || (n =? 186) || ((188 <=? n) && (n <=? 190))
  || ((192 <=? n) && (n <=? 214)) || ((216 <=? n) && (n <=? 246))
  || (248 <=? n).

(** [str.lower] on one character. *)
Definition lower_char (c : ascii) : ascii :=
  let n := code c in
  if ((65 <=? n) && (n <=? 90)) || ((192 <=? n) && (n <=? 214))
     || ((216 <=? n) && (n <=? 222))
  then ascii_of_nat (Z.to_nat (n + 32)) else c.

Definition lower (s : str) : str := map lower_char s.

Fixpoint lstrip (s : str) : str :=
  match s with
  | c :: s' => if isspace c then lstrip s' else s
  | [] => []
  end.

Definition rstrip (s : str) : str := rev (lstrip (rev s)).

(** [str.strip()] *)
Definition strip (s : str) : str := rstrip (lstrip s).

(** Truthiness of a sequence. *)
Definition truthy {A} (l : list A) : bool :=
  match l with [] => false | _ => true end.

(** [s.startswith(sub, p)] for an in-range [p]. *)
Definition match_at (s sub : str) (p : Z) : bool :=
  bool_decide (take (length sub) (drop (Z.to_nat p) s) = sub).

(** Candidates [lo + k - 1] down to [lo], highest first. *)
Fixpoint rfind_from (s sub : str) (lo : Z) (k : nat) : Z :=
  match k with
  | O => -1
  | S k' =>
      if match_at s sub (lo + Z.of_nat k') then lo + Z.of_nat k'
      else rfind_from s sub lo k'
  end.

(** Normalisation of the [start] argument of a search: a negative
    index counts from the end; a large one is left as it is. *)
Definition adjust_start (i n : Z) : Z :=
  if i <? 0 then Z.max (i + n) 0 else i.

(** [s.rfind(sub, start, end)]: the highest index [p] with
    [start <= p], [p + len(sub) <= end] and [s[p:p+len(sub)] == sub],
    or [-1]. *)
Definition rfind (s sub : str) (start end_ : Z) : Z :=
  let lo := adjust_start start (len s) in
  let hi := adjust end_ (len s) in
  if hi - lo <? len sub then -1
  else rfind_from s sub lo (Z.to_nat (hi - lo - len sub + 1)).

(** [sub in s] *)
Fixpoint contains (sub s : str) : bool :=
  bool_decide (take (length sub) s = sub) ||
  match s with
  | [] => false
  | _ :: s' => contains sub s'
  end.

(** [re.findall(r'\w+', s)]: the maximal runs of word characters,
    left to right.  [cur] is the run being read, reversed. *)
Fixpoint findall_w_aux (s : str) (cur : str) : list str :=
  match s with
  | [] => if truthy cur then [rev cur] else []
  | c :: s' =>
      if isword c then findall_w_aux s' (c :: cur)
      else if truthy cur then rev cur :: findall_w_aux s' []
      else findall_w_aux s' []
  end.

Definition findall_w (s : str) : list str := findall_w_aux s [].

(** Values stored in an open [Dict[str, Any]] or bound to an attribute:
    [None], integers, strings, and any other object, which the modelled
    code never looks into. *)
Inductive value :=
| VNone
| VInt (n : Z)
| VStr (s : string)
| VObject (repr : string).

End Py.

Import Py.

(** ** content_processor.py *)

Module ContentProcessor.

(** [ContentChunk]: the fields the chunker and the index read.
    ([chunk_id] and [created_at] are derived in the constructor from
    an MD5 digest and the wall clock and are read by no operation
    below.) *)
Record ContentChunk := mkChunk {
  content : str;
  source : string;
  source_type : string;
  metadata : gmap string value
}.

(** [ContentChunk.__init__]: [self.metadata = metadata or {}]. *)
Definition new_chunk (content : str) (source source_type : string)
    (metadata : option (gmap string value)) : ContentChunk :=
  mkChunk content source source_type (default ∅ metadata).

Record t := mk {
  chunk_size : Z;
  overlap_size : Z
}.

(** An exception raised by a constructor. *)
Inductive config_error := ValueError (msg : string).

(** [ContentProcessor.__init__(chunk_size, overlap_size)]: stores the
    two values; there is no raising path. *)
Definition __init__ (chunk_size overlap_size : Z) : config_error + t :=
  inr (mk chunk_size overlap_size).

Definition sentence_endings : list str :=
  [lit "."; lit "!"; lit "?"; [ascii_of_nat 10; ascii_of_nat 10]].

(** The [for ending in sentence_endings] loop with its [break]. *)
Fixpoint boundary_scan (text : str) (search_start search_end : Z)
    (endings : list str) (best_pos : Z) : Z :=
  match endings with
  | [] => best_pos
  | ending :: rest =>
      let pos := rfind text ending search_start search_end in
      if search_start <? pos then pos + 1
      else boundary_scan text search_start search_end rest best_pos
  end.

Definition _find_sentence_boundary (text : str) (start preferred_end : Z) : Z :=
  let search_start := Z.max start (preferred_end - 100) in
  let search_end := Z.min (len text) (preferred_end + 100) in
  boundary_scan text search_start search_end sentence_endings preferred_end.

(** End of the window that starts at [start]. *)
Definition window_end (self : t) (text : str) (start : Z) : Z :=
  let end_ := start + chunk_size self in
  if end_ <? len text then
    let sentence_end := _find_sentence_boundary text start end_ in
    if start <? sentence_end then sentence_end else end_
  else end_.

(** [metadata.copy() if metadata else {}] followed by [update]. *)
Definition chunk_metadata (metadata : option (gmap string value))
    (start end_ : Z) (index : Z) : gmap string value :=
  <["chunk_index" := VInt index]>
    (<["chunk_end" := VInt end_]>
       (<["chunk_start" := VInt start]> (default ∅ metadata))).

(** One iteration of the [while] body: the chunk list after the
    iteration and the next [start]. *)
Definition chunk_step (self : t) (text : str) (source source_type : string)
    (metadata : option (gmap string value))
    (start : Z) (chunks : list ContentChunk) : list ContentChunk * Z :=
  let end_ := window_end self text start in
  let chunk_text := strip (slice text start end_) in
  let chunks' :=
    if truthy chunk_text then
      chunks ++ [new_chunk chunk_text source source_type
                   (Some (chunk_metadata metadata start end_ (len chunks)))]
    else chunks in
  (chunks', Z.max (start + chunk_size self - overlap_size self) end_).

(** [while start < len(text): ...] *)
Fixpoint chunk_loop (fuel : nat) (self : t) (text : str)
    (source source_type : string) (metadata : option (gmap string value))
    (start : Z) (chunks : list ContentChunk) : option (list ContentChunk) :=
  if start <? len text then
    match fuel with
    | O => None
    | S fuel' =>
        let '(chunks', start') :=
          chunk_step self text source source_type metadata start chunks in
        chunk_loop fuel' self text source source_type metadata start' chunks'
    end
  else Some chunks.

Definition chunk_text (fuel : nat) (self : t) (text : str)
    (source source_type : string) (metadata : option (gmap string value))
    : option (list ContentChunk) :=
  if negb (truthy text) || (len text <? chunk_size self) then
    Some [new_chunk text source source_type metadata]
  else chunk_loop fuel self text source source_type metadata 0 [].

(** The [(chunk_start, chunk_end)] pair recorded in a chunk. *)
Definition span (c : ContentChunk) : option (Z * Z) :=
  match metadata c !! "chunk_start", metadata c !! "chunk_end" with
  | Some (VInt s), Some (VInt e) => Some (s, e)
  | _, _ => None
  end.

(** The [chunk_end] recorded in a chunk. *)
Definition chunk_end (c : ContentChunk) : option Z :=
  match metadata c !! "chunk_end" with
  | Some (VInt e) => Some e
  | _ => None
  end.

End ContentProcessor.

Module CP := ContentProcessor.

(** ** The content index

    Python lists are objects: [search_chunks = self.chunks] binds a second
    name to the list the index owns, and [get_chunks_by_type] hands the
    bucket itself to its caller.  Lists therefore live in a store and are
    named by locations; [append], [extend] and allocation act on the
    store.  The two dictionaries are owned by the index alone and are
    kept by value; the order in which the keys of [index_by_type] were
    inserted, which [get_stats] reports, is kept beside it. *)

Module ContentIndex.

Import ContentProcessor.

Definition loc := positive.

(** The heap of list objects and the instance attributes.  The two
    dictionaries hold references to list objects; [type_order] is the
    order in which the keys of [index_by_type] were inserted, which is
    the order [dict.keys()] lists them in. *)
Record state := mkState {
  store : gmap loc (list ContentChunk);
  chunks : loc;
  index_by_source : gmap string loc;
  index_by_type : gmap string loc;
  type_order : list string
}.

Definition M (A : Type) : Type := state -> A * state.

Definition ret {A} (a : A) : M A := fun s => (a, s).

Definition bind {A B} (m : M A) (k : A -> M B) : M B :=
  fun s => let '(a, s') := m s in k a s'.

Declare Scope index_scope.
Delimit Scope index_scope with index.
Notation "'let*' x ':=' m 'in' k" := (bind m (fun x => k))
  (at level 10, x name, m at level 100, k at level 200) : index_scope.
Notation "m ;; k" := (bind m (fun _ => k))
  (at level 100, k at level 200, right associativity) : index_scope.
#[local] Open Scope index_scope.

Definition set_store (st : gmap loc (list ContentChunk)) (s : state) : state :=
  mkState st (chunks s) (index_by_source s) (index_by_type s) (type_order s).

(** A list display [[...]]: a new list object. *)
Definition alloc (l : list ContentChunk) : M loc :=
  fun s =>
    let r := fresh (dom (store s)) in
    (r, set_store (<[r := l]> (store s)) s).

(** The current contents of a list object. *)
Definition deref (r : loc) : M (list ContentChunk) :=
  fun s => (default [] (store s !! r), s).

(** [r.append(c)] *)
Definition list_append (r : loc) (c : ContentChunk) : M unit :=
  fun s => (tt, set_store (alter (fun l => l ++ [c]) r (store s)) s).

(** [r.extend(l)] *)
Definition list_extend (r : loc) (l : list ContentChunk) : M unit :=
  fun s => (tt, set_store (alter (fun l0 => l0 ++ l) r (store s)) s).

Definition get_self : M state := fun s => (s, s).

(** [self.index_by_source[k] = r] *)
Definition set_by_source (k : string) (r : loc) : M unit :=
  fun s => (tt, mkState (store s) (chunks s)
                  (<[k := r]> (index_by_source s)) (index_by_type s)
                  (type_order s)).

(** [self.index_by_type[k] = r]: a new key goes to the end of the
    dictionary's order, a key already present keeps its place. *)
Definition set_by_type (k : string) (r : loc) : M unit :=
  fun s => (tt, mkState (store s) (chunks s)
                  (index_by_source s) (<[k := r]> (index_by_type s))
                  (match index_by_type s !! k with
                   | Some _ => type_order s
                   | None => type_order s ++ [k]
                   end)).

(** [for x in l: body(x)] *)
Fixpoint for_each {A} (l : list A) (body : A -> M unit) : M unit :=
  match l with
  | [] => ret tt
  | x :: l' => body x ;; for_each l' body
  end.

(** [ContentIndex.__init__]: one empty list, two empty dictionaries. *)
Definition __init__ : state :=
  mkState {[ 1%positive := [] ]} 1%positive ∅ ∅ [].

(** [self.chunks.append(chunk)] *)
Definition append_to_chunks (chunk : ContentChunk) : M unit :=
  let* self := get_self in
  list_append (chunks self) chunk.

(** [if k not in self.index_by_source: self.index_by_source[k] = []] *)
Definition ensure_source_bucket (k : string) : M unit :=
  let* self := get_self in
  match index_by_source self !! k with
  | None => let* r := alloc [] in set_by_source k r
  | Some _ => ret tt
  end.

(** [self.index_by_source[k].append(chunk)]; the key is present, the
    statement before has seen to it. *)
Definition append_to_source_bucket (k : string) (chunk : ContentChunk) : M unit :=
  let* self := get_self in
  match index_by_source self !! k with
  | Some r => list_append r chunk
  | None => ret tt
  end.

(** [if k not in self.index_by_type: self.index_by_type[k] = []] *)
Definition ensure_type_bucket (k : string) : M unit :=
  let* self := get_self in
  match index_by_type self !! k with
  | None => let* r := alloc [] in set_by_type k r
  | Some _ => ret tt
  end.

(** [self.index_by_type[k].append(chunk)] *)
Definition append_to_type_bucket (k : string) (chunk : ContentChunk) : M unit :=
  let* self := get_self in
  match index_by_type self !! k with
  | Some r => list_append r chunk
  | None => ret tt
  end.

(** Body of the loop of [add_chunks]. *)
Definition add_chunk (chunk : ContentChunk) : M unit :=
  append_to_chunks chunk ;;
  ensure_source_bucket (source chunk) ;;
  append_to_source_bucket (source chunk) chunk ;;
  ensure_type_bucket (source_type chunk) ;;
  append_to_type_bucket (source_type chunk) chunk.

(** [add_chunks(chunks)]; the argument is a list of the caller's own. *)
Definition add_chunks (new_chunks : list ContentChunk) : M unit :=
  for_each new_chunks add_chunk.

Definition Qltb (x y : Q) : bool := negb (Qle_bool y x).

(** [_calculate_relevance_score(content, query_words)] *)
Definition _calculate_relevance_score (content : str) (query_words : gset str) : Q :=
  let content_words : gset str := list_to_set (findall_w content) in
  let exact_matches := len (elements (query_words ∩ content_words)) in
  let partial_matches :=
    foldl (fun acc query_word =>
             if existsb (fun content_word => contains query_word content_word)
                  (elements content_words)
             then (acc + (1 # 2))%Q else acc)
          0%Q (elements query_words) in
  let phrase_matches :=
    foldl (fun acc query_word =>
             if contains query_word content then acc + 1 else acc)
          0 (elements query_words) in
  (inject_Z exact_matches * 2 + partial_matches
   + inject_Z phrase_matches * (1 # 2))%Q.

(** Insertion of [x] in front of a list already in descending key
    order, ahead of every element whose key is not larger. *)
Fixpoint insert_desc {A} (key : A -> Q) (x : A) (l : list A) : list A :=
  match l with
  | [] => [x]
  | y :: l' =>
      if Qltb (key x) (key y) then y :: insert_desc key x l'
      else x :: y :: l'
  end.

(** [l.sort(key=key, reverse=True)]: descending by key, equal keys in
    their original order. *)
Definition sort_reverse {A} (key : A -> Q) (l : list A) : list A :=
  foldr (insert_desc key) [] l.

(** The scoring loop of [search_chunks] with its local list
    [scored_chunks]. *)
Definition score_chunks (query_words : gset str) (candidates : list ContentChunk)
    : list (ContentChunk * Q) :=
  foldl (fun scored_chunks chunk =>
           let score := _calculate_relevance_score (lower (content chunk)) query_words in
           if Qltb 0 score then scored_chunks ++ [(chunk, score)]
           else scored_chunks)
        [] candidates.

(** [self.index_by_type.get(source_type, [])] *)
Definition get_bucket (index : gmap string loc) (k : string) : M loc :=
  match index !! k with
  | Some r => ret r
  | None => alloc []
  end.

(** Body of the loop over [source_types]:
    [search_chunks.extend(self.index_by_type.get(source_type, []))]. *)
Definition extend_from_type (search_chunks : loc) (source_type : string) : M unit :=
  let* self := get_self in
  let* bucket := get_bucket (index_by_type self) source_type in
  let* l := deref bucket in
  list_extend search_chunks l.

Definition search_chunks (query : str) (source_types : option (list string))
    (max_results : Z) : M (list ContentChunk) :=
  let query_lower := lower query in
  let query_words : gset str := list_to_set (findall_w query_lower) in
  let* self := get_self in
  let* search_chunks :=
    (if truthy (default [] source_types) then
       let* fresh_list := alloc [] in
       for_each (default [] source_types) (extend_from_type fresh_list) ;;
       ret fresh_list
     else ret (chunks self)) in
  let* candidates := deref search_chunks in
  let scored_chunks := score_chunks query_words candidates in
  let scored_chunks := sort_reverse snd scored_chunks in
  ret (map fst (slice_to scored_chunks max_results)).

Definition get_chunks_by_source (source : string) : M loc :=
  let* self := get_self in get_bucket (index_by_source self) source.

Definition get_chunks_by_type (source_type : string) : M loc :=
  let* self := get_self in get_bucket (index_by_type self) source_type.

Record stats := mkStats {
  total_chunks : Z;
  sources : Z;
  source_types : list string;
  chunks_by_type : gmap string Z
}.

Definition get_stats : M stats :=
  let* self := get_self in
  let* all := deref (chunks self) in
  let* by_type := (fun s => ((fun r => len (default [] (store s !! r))) <$> index_by_type self, s)) in
  ret (mkStats (len all)
         (Z.of_nat (size (index_by_source self)))
         (type_order self)
         by_type).

(** *** The three views of an index state *)

Definition contents (s : state) (r : loc) : list ContentChunk :=
  default [] (store s !! r).

Definition view_chunks (s : state) : list ContentChunk :=
  contents s (chunks s).

Definition view_by_source (s : state) : gmap string (list ContentChunk) :=
  contents s <$> index_by_source s.

Definition view_by_type (s : state) : gmap string (list ContentChunk) :=
  contents s <$> index_by_type s.

Definition same_views (s s' : state) : Prop :=
  view_chunks s' = view_chunks s
  /\ view_by_source s' = view_by_source s
  /\ view_by_type s' = view_by_type s.

(** Every list the index names exists, and no list has two names. *)
Record wf (s : state) : Prop := mkWf {
  wf_chunks : chunks s ∈ dom (store s);
  wf_source : forall k r, index_by_source s !! k = Some r -> r ∈ dom (store s);
  wf_type : forall k r, index_by_type s !! k = Some r -> r ∈ dom (store s);
  wf_chunks_source : forall k, index_by_source s !! k <> Some (chunks s);
  wf_chunks_type : forall k, index_by_type s !! k <> Some (chunks s);
  wf_source_type : forall k1 k2 r,
    index_by_source s !! k1 = Some r -> index_by_type s !! k2 <> Some r;
  wf_source_inj : forall k1 k2 r,
    index_by_source s !! k1 = Some r -> index_by_source s !! k2 = Some r -> k1 = k2;
  wf_type_inj : forall k1 k2 r,
    index_by_type s !! k1 = Some r -> index_by_type s !! k2 = Some r -> k1 = k2
}.

(** [add_chunks(chunks)] when the argument is a list object of the
    heap: the [for] statement asks the list for its element at the next
    position before every iteration, so that elements appended in the
    meantime are iterated over as well.  [i] is the position of the
    iterator. *)
Fixpoint add_chunks_from (fuel : nat) (batch : loc) (i : nat) (s : state)
    : option (unit * state) :=
  match contents s batch !! i with
  | None => Some (tt, s)
  | Some chunk =>
      match fuel with
      | O => None
      | S fuel' => add_chunks_from fuel' batch (S i) (snd (add_chunk chunk s))
      end
  end.

Definition add_chunks_ref (fuel : nat) (batch : loc) : state -> option (unit * state) :=
  add_chunks_from fuel batch 0.

End ContentIndex.

Module CI := ContentIndex.

(** ** orchestrator.py

    The coroutines are awaited one after the other, each inside its own
    [try]; an agent is the outcome of its three operations on given
    arguments, which is either a value or a raised object.  Every
    [except] clause of the file names [Exception]: it catches the
    instances of that class and lets any other raise through. *)

Module Orchestrator.

(** [models.AgentType] *)
Inductive AgentType := JIRA | GITHUB | API | FILESYSTEM | VIDEO | S3 | URL.

#[global] Instance AgentType_eq_dec : EqDecision AgentType.
Proof. solve_decision. Defined.

Definition all_types : list AgentType :=
  [JIRA; GITHUB; API; FILESYSTEM; VIDEO; S3; URL].

(** [agent_type.value] *)
Definition value_of (a : AgentType) : string :=
  match a with
  | JIRA => "jira" | GITHUB => "github" | API => "api"
  | FILESYSTEM => "filesystem" | VIDEO => "video" | S3 => "s3" | URL => "url"
  end.

(** [AgentType(name)]; [None] is the [ValueError] of an unknown name. *)
Definition of_value (name : str) : option AgentType :=
  find (fun a => bool_decide (lit (value_of a) = name)) all_types.

(** A raised object: its class, [str(e)], and whether it is an instance
    of [Exception].  [asyncio.CancelledError], [KeyboardInterrupt] and
    [SystemExit] derive from [BaseException] alone and are not. *)
Record exn := Exn { exn_class : string; exn_str : str; is_Exception : bool }.

(** The outcome of a call: [inl e] when it raised [e]. *)
Definition result (A : Type) : Type := exn + A.

Definition raise {A} (e : exn) : result A := inl e.

Definition bind {A B} (m : result A) (k : A -> result B) : result B :=
  match m with
  | inl e => inl e
  | inr a => k a
  end.

(** [try: body  except Exception as e: handler(e)]: a raise that is
    not an instance of [Exception] passes through the clause. *)
Definition try_except {A} (body : result A) (handler : exn -> result A) : result A :=
  match body with
  | inl e => if is_Exception e then handler e else inl e
  | inr a => inr a
  end.

Declare Scope result_scope.
Delimit Scope result_scope with result.
Notation "'let*' x ':=' m 'in' k" := (bind m (fun x => k))
  (at level 10, x name, m at level 100, k at level 200) : result_scope.
#[local] Open Scope result_scope.

Fixpoint mapM {A B} (f : A -> result B) (l : list A) : result (list B) :=
  match l with
  | [] => inr []
  | x :: l' => let* y := f x in let* ys := mapM f l' in inr (y :: ys)
  end.

Definition record := gmap string value.

(** [models.AgentResponse] *)
Record AgentResponse := mkAgentResponse {
  agent_type : AgentType;
  success : bool;
  data : list record;
  error : option str;
  metadata : option (gmap string value)
}.

(** [models.WorkflowResponse] *)
Record WorkflowResponse := mkWorkflowResponse {
  query : str;
  agents_used : list AgentType;
  results : list AgentResponse;
  summary : str;
  total_results : Z;
  execution_time : Q
}.

(** [models.QueryRequest] *)
Record QueryRequest := mkQueryRequest {
  prompt : str;
  max_results : option Z;
  specific_sources : option (list AgentType)
}.

(** The capability set of a source ([agents.base_agent.BaseAgent]). *)
Record Agent := mkAgent {
  search : str -> option Z -> result AgentResponse;
  is_relevant : str -> result bool;
  agent_health_check : result bool
}.

Inductive summary_item :=
| ItemFound (agent : string) (count : Z) (sample_data : list record)
| ItemFailed (agent : string) (error : option str).

(** What a completion request carries. *)
Inductive messages :=
| RelevancePrompt (query : str)
| SummaryPrompt (query : str) (results_summary : list summary_item).

(** [llm_client.LLMClient] *)
Record LLMClient := mkLLM {
  chat_completion : messages -> Z -> Q -> result str
}.

(** The instance dictionary of an [AgenticOrchestrator].  [agents] is
    a [dict] in insertion order.  [openai_client] is [None] when the
    instance has no attribute of that name. *)
Record t := mk {
  llm_client : option LLMClient;
  agents : list (AgentType * Agent);
  openai_client : option value
}.

Definition truth (v : value) : bool :=
  match v with
  | VNone => false
  | VInt n => negb (n =? 0)
  | VStr s => negb (bool_decide (s = ""%string))
  | VObject _ => true
  end.

Definition AttributeError (attr : string) : exn :=
  Exn "AttributeError"
    (lit "'AgenticOrchestrator' object has no attribute '" ++ lit attr ++ lit "'")
    true.

Definition KeyError (a : AgentType) : exn :=
  Exn "KeyError" (lit (value_of a)) true.

(** [self.openai_client] *)
Definition get_openai_client (self : t) : result value :=
  match openai_client self with
  | Some v => inr v
  | None => raise (AttributeError "openai_client")
  end.

(** [d[k]] *)
Definition dict_get {V} (d : list (AgentType * V)) (k : AgentType) : option V :=
  snd <$> find (fun kv => bool_decide (fst kv = k)) d.

(** [k in d] *)
Definition dict_mem {V} (d : list (AgentType * V)) (k : AgentType) : bool :=
  bool_decide (is_Some (dict_get d k)).

(** [d[k] = v] *)
Fixpoint dict_set {V} (d : list (AgentType * V)) (k : AgentType) (v : V)
    : list (AgentType * V) :=
  match d with
  | [] => [(k, v)]
  | (k', v') :: d' =>
      if bool_decide (k' = k) then (k, v) :: d' else (k', v') :: dict_set d' k v
  end.

Definition keys {V} (d : list (AgentType * V)) : list AgentType := map fst d.

(** The [try] block of [_initialize_agents]: the constructors run in a
    fixed order and the first one that raises ends the registration.
    The result is the registry as the block leaves it and what was
    raised, if anything. *)
Fixpoint register_all (ctors : list (AgentType * result Agent))
    (agents : list (AgentType * Agent))
    : list (AgentType * Agent) * option exn :=
  match ctors with
  | [] => (agents, None)
  | (ty, inr a) :: rest => register_all rest (dict_set agents ty a)
  | (ty, inl e) :: _ => (agents, Some e)
  end.

(** [_initialize_agents]: the [except Exception] clause logs and keeps
    what was registered. *)
Definition _initialize_agents (ctor : AgentType -> result Agent)
    : result (list (AgentType * Agent)) :=
  let '(agents, raised) :=
    register_all (map (fun ty => (ty, ctor ty)) all_types) [] in
  match raised with
  | None => inr agents
  | Some e => try_except (inl e) (fun _ => inr agents)
  end.

(** [AgenticOrchestrator.__init__], once [get_llm_client()] has returned
    [llm]: binds [llm_client] and [agents] and nothing else. *)
Definition __init__ (llm : LLMClient) (ctor : AgentType -> result Agent)
    : result t :=
  let* agents := _initialize_agents ctor in
  inr (mk (Some llm) agents None).

(** [str.upper] on one character.  (The upper-case forms of code points
    181 and 255 lie beyond 255; these two are kept as they are.) *)
Definition upper_char (c : ascii) : str :=
  let n := code c in
  if ((97 <=? n) && (n <=? 122)) || ((224 <=? n) && (n <=? 246))
     || ((248 <=? n) && (n <=? 254))
  then [ascii_of_nat (Z.to_nat (n - 32))]
  else if n =? 223 then lit "SS" else [c].

Definition upper (s : str) : str := flat_map upper_char s.

(** [s.split(sep)] for a one-character separator. *)
Fixpoint split_aux (sep : ascii) (s : str) (cur : str) : list str :=
  match s with
  | [] => [rev cur]
  | c :: s' =>
      if bool_decide (c = sep) then rev cur :: split_aux sep s' []
      else split_aux sep s' (c :: cur)
  end.

Definition split (sep : ascii) (s : str) : list str := split_aux sep s [].

(** The parsing loop of [_ai_determine_relevance]. *)
Definition parse_agents (self : t) (ai_response : str) : list AgentType :=
  foldl (fun suggested_agents agent_name =>
           let agent_name := upper (strip agent_name) in
           match of_value (lower agent_name) with
           | Some agent_type =>
               if dict_mem (agents self) agent_type
               then suggested_agents ++ [agent_type]
               else suggested_agents
           | None => suggested_agents
           end)
        [] (split ","%char ai_response).

Definition _ai_determine_relevance (self : t) (query : str)
    : result (list AgentType) :=
  try_except
    (let* client :=
       match llm_client self with
       | Some c => inr c
       | None => raise (Exn "AttributeError"
                         (lit "'NoneType' object has no attribute 'chat_completion'")
                         true)
       end in
     let* response := chat_completion client (RelevancePrompt query) 100 (1 # 10) in
     let ai_response := strip response in
     inr (parse_agents self ai_response))
    (fun _ => inr []).

(** Body of the loop of the static tier: the [try] around the
    predicate of one agent. *)
Definition check_relevance (query : str) (relevant_agents : list AgentType)
    (agent_type : AgentType) (agent : Agent) : result (list AgentType) :=
  try_except
    (let* relevant := is_relevant agent query in
     inr (if relevant then relevant_agents ++ [agent_type] else relevant_agents))
    (fun _ => inr relevant_agents).

(** [for agent_type, agent in self.agents.items(): ...] *)
Fixpoint static_loop (query : str) (agents : list (AgentType * Agent))
    (relevant_agents : list AgentType) : result (list AgentType) :=
  match agents with
  | [] => inr relevant_agents
  | (agent_type, agent) :: rest =>
      let* relevant_agents :=
        check_relevance query relevant_agents agent_type agent in
      static_loop query rest relevant_agents
  end.

(** The static tier. *)
Definition static_relevant (self : t) (query : str) : result (list AgentType) :=
  static_loop query (agents self) [].

Definition _determine_relevant_agents (self : t) (query : str)
    (specific_sources : option (list AgentType)) : result (list AgentType) :=
  if truthy (default [] specific_sources) then
    inr (filter (fun agent_type => dict_mem (agents self) agent_type = true)
           (default [] specific_sources))
  else
    let* relevant_agents := static_relevant self query in
    let* relevant_agents :=
      (if negb (truthy relevant_agents) then
         let* client := get_openai_client self in
         if truth client then _ai_determine_relevance self query
         else inr relevant_agents
       else inr relevant_agents) in
    if negb (truthy relevant_agents) then inr (keys (agents self))
    else inr relevant_agents.

Definition sum_Z (l : list Z) : Z := foldr Z.add 0 l.

(** [sum(len(r.data) for r in results if r.success)] *)
Definition count_results (results : list AgentResponse) : Z :=
  sum_Z (map (fun r => len (data r)) (filter (fun r => success r = true) results)).

(** [sep.join(parts)] *)
Fixpoint join (sep : str) (parts : list str) : str :=
  match parts with
  | [] => []
  | [x] => x
  | x :: rest => x ++ sep ++ join sep rest
  end.

Definition _generate_basic_summary (results : list AgentResponse) : str :=
  let successful_agents :=
    map (fun r => lit (value_of (agent_type r)))
        (filter (fun r => success r = true) results) in
  let failed_agents :=
    map (fun r => lit (value_of (agent_type r)))
        (filter (fun r => success r = false) results) in
  let total_results := count_results results in
  let summary_parts :=
    (if truthy successful_agents
     then [lit "Successfully searched: " ++ join (lit ", ") successful_agents]
     else [])
    ++ (if truthy failed_agents
        then [lit "Failed to search: " ++ join (lit ", ") failed_agents]
        else [])
    ++ [lit "Total results found: " ++ lit (pretty total_results)] in
  join (lit ". ") summary_parts ++ lit ".".

(** The list handed to the completion backend by [_generate_summary]. *)
Definition results_summary (results : list AgentResponse) : list summary_item :=
  flat_map (fun r =>
              if success r && truthy (data r) then
                [ItemFound (value_of (agent_type r)) (len (data r)) (slice_to (data r) 2)]
              else if negb (success r) then
                [ItemFailed (value_of (agent_type r)) (error r)]
              else [])
           results.

Definition _generate_summary (self : t) (query : str)
    (results : list AgentResponse) : result str :=
  match llm_client self with
  | None => inr (_generate_basic_summary results)
  | Some client =>
      try_except
        (let* response :=
           chat_completion client
             (SummaryPrompt query (results_summary results)) 250 (3 # 10) in
         inr (strip response))
        (fun _ => inr (_generate_basic_summary results))
  end.

(** The [try] around [await task]: what awaiting the task of one agent
    appends to [results]. *)
Definition collect (agent_type : AgentType) (task : result AgentResponse)
    : result AgentResponse :=
  try_except task
    (fun e => inr (mkAgentResponse agent_type false [] (Some (exn_str e)) None)).

(** The [try] block of [process_query]; [elapsed] is the clock read at
    the [return]. *)
Definition process_query_body (self : t) (request : QueryRequest) (elapsed : Q)
    : result WorkflowResponse :=
  let* relevant_agents :=
    _determine_relevant_agents self (prompt request) (specific_sources request) in
  if negb (truthy relevant_agents) then
    inr (mkWorkflowResponse (prompt request) [] []
           (lit "No relevant agents found for this query.") 0 elapsed)
  else
    let* agent_tasks :=
      mapM (fun agent_type =>
              match dict_get (agents self) agent_type with
              | Some agent =>
                  inr (agent_type, search agent (prompt request) (max_results request))
              | None => raise (KeyError agent_type)
              end)
           relevant_agents in
    let* results :=
      mapM (fun '(agent_type, task) => collect agent_type task) agent_tasks in
    let* summary := _generate_summary self (prompt request) results in
    let total_results := count_results results in
    inr (mkWorkflowResponse (prompt request) relevant_agents results
           summary total_results elapsed).

(** The response built by the outer [except] clause. *)
Definition failure_response (request : QueryRequest) (e : exn) (elapsed : Q)
    : WorkflowResponse :=
  mkWorkflowResponse (prompt request) [] []
    (lit "Query processing failed: " ++ exn_str e) 0 elapsed.

Definition process_query (self : t) (request : QueryRequest) (elapsed : Q)
    : result WorkflowResponse :=
  try_except (process_query_body self request elapsed)
    (fun e => inr (failure_response request e elapsed)).

Record health_entry := mkHealth {
  healthy : bool;
  status : string;
  health_error : option str
}.

Record health_report := mkReport {
  overall_healthy : bool;
  report_agents : gmap string health_entry;
  openai_configured : bool
}.

(** The [try] of the loop body of [health_check]: the entry written
    for one agent. *)
Definition probe (agent : Agent) : result health_entry :=
  try_except
    (let* is_healthy := agent_health_check agent in
     inr (mkHealth is_healthy (if is_healthy then "OK" else "ERROR") None))
    (fun e => inr (mkHealth false "ERROR" (Some (exn_str e)))).

(** [for agent_type, agent in self.agents.items(): ...] *)
Fixpoint health_loop (agents : list (AgentType * Agent))
    (health_status : gmap string health_entry)
    : result (gmap string health_entry) :=
  match agents with
  | [] => inr health_status
  | (agent_type, agent) :: rest =>
      let* entry := probe agent in
      health_loop rest (<[value_of agent_type := entry]> health_status)
  end.

(** The loop of [health_check]: one entry per registered agent. *)
Definition health_status (self : t) : result (gmap string health_entry) :=
  health_loop (agents self) ∅.

Definition is_not_None (v : value) : bool :=
  match v with VNone => false | _ => true end.

Definition health_check (self : t) : result health_report :=
  let* health_status := health_status self in
  let overall_health :=
    forallb (fun kv => healthy (snd kv)) (map_to_list health_status) in
  let* client := get_openai_client self in
  inr (mkReport overall_health health_status (is_not_None client)).

End Orchestrator.

Module Orc := Orchestrator.

(** ** Concrete inputs used by the examples below *)

Module Examples.

Import Orchestrator.

(** 250 lower-case letters [a]. *)
Definition text250 : str := repeat "a"%char 250.

Definition chunkA := CP.new_chunk (lit "a file had an error today") "a.txt" "file" None.
Definition chunkB := CP.new_chunk (lit "a file was opened") "b.txt" "file" None.
Definition chunkC := CP.new_chunk (lit "nothing relevant") "c.txt" "file" None.

(** An index that ingested [chunkA], [chunkB], [chunkC] in one batch. *)
Definition index_abc : CI.state :=
  snd (CI.add_chunks [chunkA; chunkB; chunkC] CI.__init__).

(** A source whose relevance predicate is false for every query and
    whose search finds nothing. *)
Definition quiet (ty : AgentType) : Agent :=
  mkAgent (fun _ _ => inr (mkAgentResponse ty true [] None None))
          (fun _ => inr false)
          (inr true).

(** A completion backend that fails on every request. *)
Definition llm_down : LLMClient :=
  mkLLM (fun _ _ _ => inl (Exn "ConnectionError" (lit "backend unavailable") true)).

(** The orchestrator as constructed, with seven quiet sources. *)
Definition quiet_orchestrator : t :=
  mk (Some llm_down) (map (fun ty => (ty, quiet ty)) all_types) None.

Definition hello : QueryRequest := mkQueryRequest (lit "hello") (Some 10) None.

Definition item (n : Z) : record := {[ "id" := VInt n ]}.

(** Source A: its search raises. *)
Definition refusing : Agent :=
  mkAgent (fun _ _ => inl (Exn "ConnectionError" (lit "connection refused") true))
          (fun _ => inr false)
          (inr true).

(** Source B: its search succeeds with three records. *)
Definition three_results : Agent :=
  mkAgent (fun _ _ => inr (mkAgentResponse GITHUB true [item 1; item 2; item 3] None None))
          (fun _ => inr false)
          (inr true).

(** The orchestrator as constructed over sources A and B and five
    quiet ones. *)
Definition two_sources : t :=
  mk (Some llm_down)
     (map (fun ty => (ty, match ty with
                          | JIRA => refusing
                          | GITHUB => three_results
                          | _ => quiet ty
                          end)) all_types)
     None.

Definition ask_both : QueryRequest :=
  mkQueryRequest (lit "status") (Some 10) (Some [JIRA; GITHUB]).





(** A source whose relevance predicate raises. *)
Definition moody (ty : AgentType) : Agent :=
  mkAgent (fun _ _ => inr (mkAgentResponse ty true [] None None))
          (fun _ => inl (Exn "TimeoutError" (lit "timed out") true))
          (inr true).

(** A source that finds itself relevant to every query. *)
Definition keen (ty : AgentType) : Agent :=
  mkAgent (fun _ _ => inr (mkAgentResponse ty true [] None None))
          (fun _ => inr true)
          (inr false).

(** Agent constructors of which the fourth raises. *)
Definition fourth_fails (ty : AgentType) : result Agent :=
  match ty with
  | JIRA => inr (moody JIRA)
  | GITHUB => inr (keen GITHUB)
  | API => inr (quiet API)
  | _ => inl (Exn "OSError" (lit "no such directory") true)
  end.

(** The orchestrator these constructors give. *)
Definition three_agents : t :=
  mk (Some llm_down) [(JIRA, moody JIRA); (GITHUB, keen GITHUB); (API, quiet API)]
     None.

(** Agent constructors of which the first raises: [JiraAgent()] reads
    [settings.content_refresh_hours], a field [config.Settings] does
    not have. *)
Definition first_fails (ty : AgentType) : result Agent :=
  match ty with
  | JIRA =>
      inl (Exn "AttributeError"
             (lit "'Settings' object has no attribute 'content_refresh_hours'")
             true)
  | _ => inr (quiet ty)
  end.

(** A completion backend with one answer to every request. *)
Definition llm_says (answer : str) : LLMClient :=
  mkLLM (fun _ _ _ => inr answer).

(** A text with a full stop near its start. *)
Definition gap_text : str := lit "ab. cdefghijklmnopqrstuvwxyz".

(** The index holding A, B, C, and beside it a list of a caller's
    own that holds C. *)
Definition index_abc_and_list : CI.state := snd (CI.alloc [chunkC] index_abc).

Definition callers_list : CI.loc := fst (CI.alloc [chunkC] index_abc).

End Examples.

(** ** Notions used to state the properties *)

Module Spec.

Import ContentProcessor.

(** [sub] occurs in [text] at index [p]. *)
Definition occurs (text sub : str) (p : Z) : Prop :=
  0 <= p /\ take (length sub) (drop (Z.to_nat p) text) = sub.

(** [sub] has an occurrence lying in [[lo, hi)] that starts after [lo]. *)
Definition occurs_past (text sub : str) (lo hi : Z) : Prop :=
  exists q, lo < q /\ q + len sub <= hi /\ occurs text sub q.

(** [p] is the start of the last occurrence of [sub] lying in [[lo, hi)]. *)
Definition last_occurrence (text sub : str) (lo hi p : Z) : Prop :=
  lo <= p /\ p + len sub <= hi /\ occurs text sub p
  /\ forall q, lo <= q -> q + len sub <= hi -> occurs text sub q -> q <= p.

(** The boundary rule as the specification words it: the rightmost
    occurrence of any terminator in the window decides. *)
Definition rightmost_terminator (text : str) (search_start search_end : Z) : Z :=
  foldr Z.max (-1)
    (map (fun ending => rfind text ending search_start search_end) sentence_endings).

Definition boundary_as_specified (text : str) (start preferred_end : Z) : Z :=
  let search_start := Z.max start (preferred_end - 100) in
  let search_end := Z.min (len text) (preferred_end + 100) in
  let pos := rightmost_terminator text search_start search_end in
  if search_start <? pos then pos + 1 else preferred_end.

(** Every chunk of the list records a non-empty span, and each span
    starts at or after [lb], respectively the end of the one before. *)
Fixpoint spans_from (lb : Z) (l : list ContentChunk) : Prop :=
  match l with
  | [] => True
  | c :: l' =>
      exists s e, span c = Some (s, e) /\ lb <= s /\ s < e /\ spans_from e l'
  end.

(** Ceiling of [a / b] for positive [b]. *)
Definition ceil_div (a b : Z) : Z := (a + b - 1) / b.

#[global] Instance Qeq_decision (x y : Q) : Decision (x == y)%Q := Qeq_dec x y.

#[global] Instance Qlt_decision (x y : Q) : Decision (x < y)%Q :=
  match Qlt_le_dec x y with
  | left H => left H
  | right H => right (Qle_not_lt _ _ H)
  end.

(** The relevance score as the specification words it: twice the
    number of query words that are content words, plus one half for
    every query word contained in some content word, plus one half for
    every query word contained in the content. *)
Definition spec_score (query_words : gset str) (content : str) : Q :=
  let content_words : gset str := list_to_set (findall_w content) in
  (2 * inject_Z (Z.of_nat (size (query_words ∩ content_words)))
   + (1 # 2) * inject_Z (Z.of_nat (size
       (filter (fun q => set_Exists (fun w => contains q w = true) content_words)
               query_words)))
   + (1 # 2) * inject_Z (Z.of_nat (size
       (filter (fun q => contains q content = true) query_words))))%Q.

(** The word set of a query. *)
Definition words_of (query : str) : gset str := list_to_set (findall_w (lower query)).

(** The score of a chunk for a query. *)
Definition chunk_score (query : str) (c : CP.ContentChunk) : Q :=
  spec_score (words_of query) (lower (CP.content c)).

(** The sequence a search scans: every chunk, or the requested type
    buckets one after the other. *)
Definition candidates (s : CI.state) (source_types : option (list string))
    : list CP.ContentChunk :=
  if truthy (default [] source_types) then
    flat_map (fun ty => default [] (CI.view_by_type s !! ty)) (default [] source_types)
  else CI.view_chunks s.

(** [s'] has the lists and dictionaries of [s], unchanged, and
    possibly further lists. *)
Definition extends (s s' : CI.state) : Prop :=
  CI.chunks s' = CI.chunks s
  /\ CI.index_by_source s' = CI.index_by_source s
  /\ CI.index_by_type s' = CI.index_by_type s
  /\ forall r, r ∈ dom (CI.store s) -> CI.store s' !! r = CI.store s !! r.

(** The index states a program can be in: the initial one, and any
    state left by one of the five operations. *)
Inductive reachable : CI.state -> Prop :=
| reach_init : reachable CI.__init__
| reach_add_chunks s new :
    reachable s -> reachable (snd (CI.add_chunks new s))
| reach_search_chunks s query source_types max_results :
    reachable s ->
    reachable (snd (CI.search_chunks query source_types max_results s))
| reach_get_chunks_by_source s source :
    reachable s -> reachable (snd (CI.get_chunks_by_source source s))
| reach_get_chunks_by_type s source_type :
    reachable s -> reachable (snd (CI.get_chunks_by_type source_type s))
| reach_get_stats s :
    reachable s -> reachable (snd (CI.get_stats s)).




(** A source type is registered. *)
Definition registered (self : Orc.t) (ty : Orc.AgentType) : Prop :=
  is_Some (Orc.dict_get (Orc.agents self) ty).

End Spec.

(** ** agents/*.py: the static relevance predicates *)

Module Agents.

Import Orchestrator.

(** [query_lower = query.lower()] followed by
    [any(keyword in query_lower for keyword in keywords)]. *)
Definition keyword_match (keywords : list string) (query : str) : bool :=
  let query_lower := lower query in
  existsb (fun keyword => contains (lit keyword) query_lower) keywords.

Definition jira_keywords : list string :=
  ["jira"; "issue"; "ticket"; "bug"; "story"; "task"; "epic";
   "sprint"; "project"; "assignee"; "status"; "priority";
   "backlog"; "board"; "workflow"].

Definition github_keywords : list string :=
  ["github"; "repository"; "repo"; "pull request"; "pr"; "issue";
   "commit"; "branch"; "fork"; "star"; "code"; "source";
   "git"; "merge"; "clone"; "push"; "pull"].

Definition api_keywords : list string :=
  ["api"; "endpoint"; "rest"; "http"; "get"; "post"; "put"; "delete";
   "json"; "xml"; "response"; "request"; "service"; "web service";
   "fetch"; "call"; "invoke"].

Definition fs_keywords : list string :=
  ["file"; "folder"; "directory"; "path"; "local"; "disk"; "filesystem";
   "document"; "text"; "log"; "config"; "script"; "code"; "read file";
   "find file"; "search file"; "list files"].

Definition video_keywords : list string :=
  ["video"; "youtube"; "vimeo"; "mp4"; "avi"; "mov"; "mkv";
   "watch"; "stream"; "movie"; "clip"; "tutorial"; "webinar";
   "recording"; "media"; "playlist"; "channel"].

Definition s3_keywords : list string :=
  ["s3"; "bucket"; "aws"; "amazon"; "object"; "file"; "storage";
   "cloud"; "upload"; "download"; "key"; "prefix"; "folder"].

Definition url_keywords : list string :=
  ["url"; "website"; "web"; "http"; "https"; "link"; "page";
   "scrape"; "fetch"; "download"; "crawl"; "parse"; "extract";
   "content"; "html"; "site"].

(** The keyword list each agent searches. *)
Definition keywords_of (ty : AgentType) : list string :=
  match ty with
  | JIRA => jira_keywords
  | GITHUB => github_keywords
  | API => api_keywords
  | FILESYSTEM => fs_keywords
  | VIDEO => video_keywords
  | S3 => s3_keywords
  | URL => url_keywords
  end.

(** The class of the URL pattern: anything but white space and the
    characters [<], [>], the double quote, [{], [}], [|], the backslash,
    [^], the backquote, and the square brackets. *)
Definition url_char (c : ascii) : bool :=
  negb (isspace c
        || existsb (fun n => code c =? n)
             [60; 62; 34; 123; 125; 124; 92; 94; 96; 91; 93]).

(** [s.startswith(p)] *)
Definition starts_with (p s : str) : bool :=
  bool_decide (take (length p) s = p).

(** The pattern [https?://[...]+] matches at the head of [s]. *)
Definition url_here (s : str) : bool :=
  (starts_with (lit "http://") s
   && match drop 7 s with c :: _ => url_char c | [] => false end)
  || (starts_with (lit "https://") s
      && match drop 8 s with c :: _ => url_char c | [] => false end).

(** [bool(re.search(url_pattern, query))] *)
Fixpoint has_urls (s : str) : bool :=
  url_here s ||
  match s with
  | [] => false
  | _ :: s' => has_urls s'
  end.

(** [is_relevant] of the agent of each type; the URL agent also looks
    for a URL in the query as typed. *)
Definition is_relevant (ty : AgentType) (query : str) : bool :=
  match ty with
  | URL => has_urls query || keyword_match url_keywords query
  | _ => keyword_match (keywords_of ty) query
  end.

End Agents.

(** ** orchestrator.py: the capability report *)

Module Capabilities.

Import Orchestrator.

Definition descriptions : list (AgentType * string) :=
  [(JIRA, "Search JIRA issues, projects, and tickets");
   (GITHUB, "Search GitHub repositories, issues, and pull requests");
   (API, "Make HTTP requests to external APIs");
   (FILESYSTEM, "Search local files and directories");
   (VIDEO, "Search and extract information from video content");
   (S3, "Search AWS S3 bucket objects and files");
   (URL, "Fetch and parse content from web URLs")]%string.

Definition keywords : list (AgentType * list string) :=
  [(JIRA, ["jira"; "issue"; "ticket"; "bug"; "story"; "task"]);
   (GITHUB, ["github"; "repository"; "pull request"; "commit"; "code"]);
   (API, ["api"; "http"; "rest"; "endpoint"; "service"]);
   (FILESYSTEM, ["file"; "folder"; "directory"; "local"; "disk"]);
   (VIDEO, ["video"; "youtube"; "vimeo"; "movie"; "clip"]);
   (S3, ["s3"; "bucket"; "aws"; "cloud storage"]);
   (URL, ["url"; "website"; "web page"; "link"; "scrape"])]%string.

(** [descriptions.get(agent_type, "Unknown agent")] *)
Definition _get_agent_description (agent_type : AgentType) : string :=
  default "Unknown agent"%string (dict_get descriptions agent_type).

(** [keywords.get(agent_type, [])] *)
Definition _get_agent_keywords (agent_type : AgentType) : list string :=
  default [] (dict_get keywords agent_type).

Record capability := mkCapability {
  description : string;
  capability_keywords : list string
}.

Definition get_agent_capabilities (self : t) : gmap string capability :=
  foldl (fun capabilities '(agent_type, agent) =>
           <[value_of agent_type :=
               mkCapability (_get_agent_description agent_type)
                            (_get_agent_keywords agent_type)]> capabilities)
        ∅ (agents self).

End Capabilities.

(** ** api.py: the two endpoints over the orchestrator *)

Module Api.

Import Orchestrator.

(** What a handler hands to the framework: a value, an
    [HTTPException] with its status code and detail, or a raise that its
    [except Exception] clause does not catch. *)
Inductive outcome (A : Type) :=
| Return (a : A)
| HTTPException (status_code : Z) (detail : str)
| Uncaught (e : exn).

Arguments Return {A} a.
Arguments HTTPException {A} status_code detail.
Arguments Uncaught {A} e.

(** [try: return value  except Exception as e: raise HTTPException(500, str(e))] *)
Definition guard {A} (call : result A) : outcome A :=
  match call with
  | inr value => Return value
  | inl e => if is_Exception e then HTTPException 500 (exn_str e) else Uncaught e
  end.

(** [POST /query] *)
Definition process_query (orchestrator : t) (request : QueryRequest) (elapsed : Q)
    : outcome WorkflowResponse :=
  guard (Orchestrator.process_query orchestrator request elapsed).

(** [GET /health] *)
Definition health_check (orchestrator : t) : outcome health_report :=
  guard (Orchestrator.health_check orchestrator).

(** [GET /capabilities] *)
Definition get_capabilities (orchestrator : t)
    : outcome (gmap string Capabilities.capability) :=
  guard (inr (Capabilities.get_agent_capabilities orchestrator)).

End Api.

(** ** Further notions *)

Module Notions.

Import ContentProcessor.

(** The chunk the loop emits for the window [[s, e)] as its [index]-th
    chunk. *)
Definition window_chunk (text : str) (source source_type : string)
    (metadata : option (gmap string value)) (index s e : Z) : ContentChunk :=
  new_chunk (strip (slice text s e)) source source_type
    (Some (chunk_metadata metadata s e index)).

(** Position [p] of the text lies in the recorded span of some chunk. *)
Definition covered (chunks : list ContentChunk) (p : Z) : Prop :=
  exists c s e, c ∈ chunks /\ span c = Some (s, e) /\ s <= p < e.

(** [Some l] for a non-empty list, [None] for the empty one. *)
Definition non_empty {A} (l : list A) : option (list A) :=
  match l with [] => None | _ => Some l end.

(** The distinct elements of a list, in the order of their first
    occurrence. *)
Definition first_seen (l : list string) : list string :=
  foldl (fun seen x => if bool_decide (x ∈ seen) then seen else seen ++ [x]) [] l.

(** The three parts of an index agree: a bucket holds the chunks of
    its source, respectively of its type, in the order of the full
    sequence; a key without chunks is absent; and the type keys were
    inserted in the order in which the types first occur. *)
Record consistent (s : CI.state) : Prop := mkConsistent {
  by_source_filter : forall k,
    CI.view_by_source s !! k
    = non_empty (filter (fun c => source c = k) (CI.view_chunks s));
  by_type_filter : forall k,
    CI.view_by_type s !! k
    = non_empty (filter (fun c => source_type c = k) (CI.view_chunks s));
  type_order_first_seen :
    CI.type_order s = first_seen (map source_type (CI.view_chunks s))
}.

(** [r] is a list object of the heap that the index does not name: a
    list of the caller's own. *)
Definition unnamed (s : CI.state) (r : CI.loc) : Prop :=
  r ∈ dom (CI.store s)
  /\ r <> CI.chunks s
  /\ (forall k, CI.index_by_source s !! k <> Some r)
  /\ (forall k, CI.index_by_type s !! k <> Some r).

(** The relevance predicate of a registered source returned [True]. *)
Definition answers_yes (query : str) (entry : Orc.AgentType * Orc.Agent) : bool :=
  match Orc.is_relevant (snd entry) query with
  | inr true => true
  | _ => false
  end.

(** Sum of the values of a dictionary of counts. *)
Definition sum_counts (m : gmap string Z) : Z :=
  map_fold (fun _ n acc => n + acc) 0 m.

End Notions.

(** * Properties *)

(** ** Python built-ins *)

Section Builtins.

Lemma len_nonneg {A} (l : list A) : 0 <= len l.
Proof. unfold len. lia. Qed.

Lemma len_app {A} (l1 l2 : list A) : len (l1 ++ l2) = len l1 + len l2.
Proof. unfold len. rewrite length_app. lia. Qed.

Lemma truthy_true {A} (l : list A) : truthy l = true <-> l <> [].
Proof. destruct l; simpl; split; intros; congruence. Qed.

Lemma truthy_false {A} (l : list A) : truthy l = false <-> l = [].
Proof. destruct l; simpl; split; intros; congruence. Qed.

Lemma adjust_nonneg (i n : Z) : 0 <= i -> adjust i n = Z.min i n.
Proof. intros Hi. unfold adjust. destruct (Z.ltb_spec i 0); [lia|done]. Qed.

(** A slice whose upper bound reaches the end is a suffix. *)
Lemma slice_suffix {A} (l : list A) (lo hi : Z) :
  0 <= lo -> len l <= hi -> slice l lo hi = drop (Z.to_nat lo) l.
Proof.
  intros Hlo Hhi. unfold slice.
  pose proof (len_nonneg l) as Hn.
  rewrite !adjust_nonneg by lia.
  rewrite (Z.min_r hi) by lia.
  destruct (Z.le_ge_cases lo (len l)).
  - rewrite Z.min_l by lia.
    apply take_ge. rewrite length_drop. unfold len in *. lia.
  - rewrite Z.min_r by lia. unfold len in *.
    rewrite !drop_ge by lia. by rewrite take_nil.
Qed.

(** With a non-negative bound, [l[:hi]] keeps the first [hi] elements. *)
Lemma slice_to_take {A} (l : list A) (hi : Z) :
  0 <= hi -> slice_to l hi = take (Z.to_nat hi) l.
Proof.
  intros Hhi. unfold slice_to, slice.
  pose proof (len_nonneg l) as Hn.
  rewrite !adjust_nonneg by lia.
  rewrite (Z.min_l 0) by lia. simpl. rewrite drop_0, Z.sub_0_r.
  destruct (Z.le_ge_cases hi (len l)).
  - by rewrite Z.min_l by lia.
  - rewrite Z.min_r by lia. unfold len in *.
    rewrite !take_ge; [done|lia|lia].
Qed.

Lemma lstrip_snoc (s : str) (c : ascii) :
  isspace c = false -> lstrip (s ++ [c]) = lstrip s ++ [c].
Proof.
  intros Hc. induction s as [|d s IH]; simpl.
  - by rewrite Hc.
  - destruct (isspace d); [exact IH|done].
Qed.

(** Text that ends in a non-blank character does not strip to nothing. *)
Lemma strip_snoc_truthy (s : str) (c : ascii) :
  isspace c = false -> truthy (strip (s ++ [c])) = true.
Proof.
  intros Hc. unfold strip, rstrip. rewrite lstrip_snoc by done.
  rewrite rev_app_distr. simpl. rewrite Hc. simpl.
  apply truthy_true. intros H. apply (f_equal (@length ascii)) in H.
  rewrite length_app in H. simpl in H. lia.
Qed.

Lemma rfind_from_cases (s sub : str) (lo : Z) (k : nat) :
  (rfind_from s sub lo k = -1
   /\ forall j, (j < k)%nat -> match_at s sub (lo + Z.of_nat j) = false)
  \/ (exists j, (j < k)%nat /\ rfind_from s sub lo k = lo + Z.of_nat j
      /\ match_at s sub (lo + Z.of_nat j) = true
      /\ forall j', (j < j' < k)%nat -> match_at s sub (lo + Z.of_nat j') = false).
Proof.
  induction k as [|k IH]; simpl.
  - left. split; [done|]. intros j Hj. lia.
  - destruct (match_at s sub (lo + Z.of_nat k)) eqn:Hm.
    + right. exists k. repeat split; [lia|done|]. intros j' Hj'. lia.
    + destruct IH as [[Hr Hall]|(j & Hj & Hr & Hmj & Hlater)].
      * left. split; [done|]. intros j Hj.
        destruct (decide (j = k)) as [->|]; [done|]. apply Hall. lia.
      * right. exists j. repeat split; [lia|done|done|].
        intros j' Hj'. destruct (decide (j' = k)) as [->|]; [done|].
        apply Hlater. lia.
Qed.

Lemma match_at_occurs (s sub : str) (p : Z) :
  0 <= p -> match_at s sub p = true <-> Spec.occurs s sub p.
Proof.
  intros Hp. unfold match_at, Spec.occurs. rewrite bool_decide_eq_true. tauto.
Qed.

Lemma occurs_in_range (s sub : str) (p : Z) :
  sub <> [] -> Spec.occurs s sub p -> p + len sub <= len s.
Proof.
  intros Hsub [Hp Hocc]. apply (f_equal (@length ascii)) in Hocc.
  rewrite length_take, length_drop in Hocc. unfold len.
  assert (length sub <> 0)%nat by (by destruct sub). lia.
Qed.

(** [rfind] on a window with non-negative bounds: [-1] when [sub] has
    no occurrence in the window, else the start of the last one. *)
Lemma rfind_spec (s sub : str) (lo hi : Z) :
  sub <> [] -> 0 <= lo -> 0 <= hi ->
  (rfind s sub lo hi = -1
   /\ forall q, lo <= q -> q + len sub <= hi -> ~ Spec.occurs s sub q)
  \/ Spec.last_occurrence s sub lo hi (rfind s sub lo hi).
Proof.
  intros Hsub Hlo Hhi. unfold rfind.
  pose proof (len_nonneg s) as Hn. pose proof (len_nonneg sub) as Hm.
  assert (0 < len sub) as Hm'.
  { unfold len. destruct sub; [done|]. simpl. lia. }
  rewrite adjust_nonneg by lia.
  assert (adjust_start lo (len s) = lo) as ->.
  { unfold adjust_start. destruct (Z.ltb_spec lo 0); [lia|done]. }
  destruct (Z.ltb_spec (Z.min hi (len s) - lo) (len sub)) as [Hshort|Hlong].
  - left. split; [done|]. intros q Hq1 Hq2 Hocc.
    pose proof (occurs_in_range _ _ _ Hsub Hocc). lia.
  - set (k := Z.to_nat (Z.min hi (len s) - lo - len sub + 1)).
    destruct (rfind_from_cases s sub lo k) as [[Hr Hall]|(j & Hj & Hr & Hmj & Hlater)].
    + left. split; [done|]. intros q Hq1 Hq2 Hocc.
      pose proof (occurs_in_range _ _ _ Hsub Hocc) as Hin.
      specialize (Hall (Z.to_nat (q - lo))).
      rewrite Z2Nat.id in Hall by lia.
      replace (lo + (q - lo)) with q in Hall by lia.
      apply match_at_occurs in Hocc; [|lia].
      rewrite Hall in Hocc; [done|]. subst k. lia.
    + right. rewrite Hr. unfold Spec.last_occurrence.
      split; [lia|]. split; [subst k; lia|]. split.
      { apply match_at_occurs; [lia|done]. }
      intros q Hq1 Hq2 Hocc.
      pose proof (occurs_in_range _ _ _ Hsub Hocc) as Hin.
      destruct (Z.le_gt_cases q (lo + Z.of_nat j)) as [|Hgt]; [done|].
      specialize (Hlater (Z.to_nat (q - lo))).
      rewrite Z2Nat.id in Hlater by lia.
      replace (lo + (q - lo)) with q in Hlater by lia.
      apply match_at_occurs in Hocc; [|lia].
      rewrite Hlater in Hocc; [done|]. subst k. lia.
Qed.

End Builtins.

(** ** Sentence boundaries *)

Section SentenceBoundary.

Import ContentProcessor Spec.

Lemma sentence_endings_nonempty : Forall (fun ending => ending <> []) sentence_endings.
Proof. unfold sentence_endings. repeat constructor; discriminate. Qed.

(** The scan stops at the first kind of terminator, in list order,
    that occurs past the window start, and takes its last occurrence. *)
Lemma boundary_scan_spec (text : str) (ss se : Z) (endings : list str) (best : Z) :
  0 <= ss -> 0 <= se -> Forall (fun ending => ending <> []) endings ->
  (Forall (fun ending => ~ occurs_past text ending ss se) endings
   /\ boundary_scan text ss se endings best = best)
  \/ (exists pre ending post p,
        endings = pre ++ ending :: post
        /\ Forall (fun e => ~ occurs_past text e ss se) pre
        /\ last_occurrence text ending ss se p
        /\ ss < p
        /\ boundary_scan text ss se endings best = p + 1).
Proof.
  intros Hss Hse Hne. induction endings as [|ending rest IH]; simpl.
  - left. split; constructor.
  - apply Forall_cons in Hne as [Hending Hrest].
    destruct (Z.ltb_spec ss (rfind text ending ss se)) as [Hfound|Hnot].
    + right. exists [], ending, rest, (rfind text ending ss se).
      split; [done|]. split; [constructor|].
      destruct (rfind_spec text ending ss se Hending Hss Hse) as [[Hr _]|Hlast];
        [lia|]. by auto.
    + assert (~ occurs_past text ending ss se) as Hnone.
      { intros (q & Hq1 & Hq2 & Hocc).
        destruct (rfind_spec text ending ss se Hending Hss Hse)
          as [[_ Hall]|(_ & _ & _ & Hmax)].
        - apply (Hall q); [lia|done|done].
        - specialize (Hmax q ltac:(lia) Hq2 Hocc). lia. }
      destruct (IH Hrest) as [[Hall Hr]|(pre & e & post & p & -> & Hpre & Hlast & Hp & Hr)].
      * left. split; [by constructor|done].
      * right. exists (ending :: pre), e, post, p.
        split; [done|]. split; [by constructor|]. by auto.
Qed.

(** C8 (as stated, refuted): in ["ab.cd!ef"] with candidate end 4 both a
    full stop (index 2) and an exclamation mark (index 5) lie in the
    window; the rightmost terminator would put the boundary at 6, the
    code puts it at 3, just after the full stop. *)
Lemma boundary_is_not_after_rightmost_terminator :
  4 < len (lit "ab.cd!ef")
  /\ boundary_as_specified (lit "ab.cd!ef") 0 4 = 6
  /\ _find_sentence_boundary (lit "ab.cd!ef") 0 4 = 3
  /\ _find_sentence_boundary (lit "ab.cd!ef") 0 4
     <> boundary_as_specified (lit "ab.cd!ef") 0 4.
Proof. vm_compute. repeat split; congruence. Qed.

(** C8 (amended): the window is [[max(start, end - 100), min(len(text),
    end + 100))].  The terminators are tried in the fixed order full
    stop, exclamation mark, question mark, blank line; the first kind
    that has an occurrence starting after the window start decides, and
    the boundary is the index just after the start of the last
    occurrence of that kind.  When no kind has such an occurrence the
    candidate end is kept. *)
Theorem find_sentence_boundary_by_priority (text : str) (start preferred_end : Z) :
  0 <= start -> start <= preferred_end ->
  let search_start := Z.max start (preferred_end - 100) in
  let search_end := Z.min (len text) (preferred_end + 100) in
  (Forall (fun ending => ~ occurs_past text ending search_start search_end)
     sentence_endings
   /\ _find_sentence_boundary text start preferred_end = preferred_end)
  \/ (exists pre ending post p,
        sentence_endings = pre ++ ending :: post
        /\ Forall (fun e => ~ occurs_past text e search_start search_end) pre
        /\ last_occurrence text ending search_start search_end p
        /\ search_start < p
        /\ _find_sentence_boundary text start preferred_end = p + 1).
Proof.
  intros Hstart Hend ss se. unfold _find_sentence_boundary.
  pose proof (len_nonneg text).
  apply boundary_scan_spec; [lia|lia|apply sentence_endings_nonempty].
Qed.

(** The rule at the text ["ab.cd!ef"], start 0, candidate end 4. *)
Lemma find_sentence_boundary_by_priority_witness :
  0 <= 0 /\ 0 <= 4 /\
  let text := lit "ab.cd!ef" in
  let search_start := Z.max 0 (4 - 100) in
  let search_end := Z.min (len text) (4 + 100) in
  (Forall (fun ending => ~ occurs_past text ending search_start search_end)
     sentence_endings
   /\ _find_sentence_boundary text 0 4 = 4)
  \/ (exists pre ending post p,
        sentence_endings = pre ++ ending :: post
        /\ Forall (fun e => ~ occurs_past text e search_start search_end) pre
        /\ last_occurrence text ending search_start search_end p
        /\ search_start < p
        /\ _find_sentence_boundary text 0 4 = p + 1).
Proof.
  split; [lia|]. split; [lia|].
  apply (find_sentence_boundary_by_priority (lit "ab.cd!ef") 0 4); lia.
Defined.

(** The boundary never lies beyond the text when the candidate end
    does not. *)
Lemma find_sentence_boundary_le (text : str) (start preferred_end : Z) :
  0 <= start -> start <= preferred_end -> preferred_end <= len text ->
  _find_sentence_boundary text start preferred_end <= len text.
Proof.
  intros Hstart Hend Hlen. unfold _find_sentence_boundary.
  pose proof (len_nonneg text).
  destruct (boundary_scan_spec text (Z.max start (preferred_end - 100))
              (Z.min (len text) (preferred_end + 100)) sentence_endings
              preferred_end ltac:(lia) ltac:(lia) sentence_endings_nonempty)
    as [[_ ->]|(pre & ending & post & p & Heq & _ & Hlast & _ & ->)]; [done|].
  destruct Hlast as (_ & Hp & _ & _).
  assert (ending <> []) as Hne.
  { pose proof sentence_endings_nonempty as Hall. rewrite Heq in Hall.
    apply Forall_app in Hall as [_ Hall]. by apply Forall_cons in Hall as [? _]. }
  assert (0 < len ending).
  { unfold len. destruct ending; [done|]. simpl. lia. }
  lia.
Qed.

End SentenceBoundary.

(** ** The chunking loop *)

Lemma span_chunk_end (c : CP.ContentChunk) (s e : Z) :
  CP.span c = Some (s, e) -> CP.chunk_end c = Some e.
Proof.
  unfold CP.span, CP.chunk_end.
  destruct (CP.metadata c !! "chunk_start") as [[]|]; try done;
    destruct (CP.metadata c !! "chunk_end") as [[]|]; try done.
  by intros [= _ ->].
Qed.

Section Chunking.

Import ContentProcessor Spec.

Variables (self : t) (text : str) (source source_type : string).
Variable metadata : option (gmap string value).

Lemma span_new_chunk (chunk_text : str) (start end_ index : Z) :
  span (new_chunk chunk_text source source_type
          (Some (chunk_metadata metadata start end_ index)))
  = Some (start, end_).
Proof.
  unfold span, new_chunk, chunk_metadata. simpl.
  rewrite lookup_insert_ne by done.
  rewrite lookup_insert_ne by done.
  rewrite lookup_insert_eq.
  rewrite lookup_insert_ne by done.
  by rewrite lookup_insert_eq.
Qed.

(** A window always ends after its start. *)
Lemma window_end_gt (start : Z) :
  1 <= chunk_size self -> start < window_end self text start.
Proof.
  intros HC. unfold window_end.
  destruct (Z.ltb_spec (start + chunk_size self) (len text)); [|lia].
  destruct (Z.ltb_spec start
              (_find_sentence_boundary text start (start + chunk_size self))); lia.
Qed.

(** A window whose candidate end lies inside the text ends inside the
    text; otherwise it ends at the candidate end. *)
Lemma window_end_range (start : Z) :
  0 <= start -> 1 <= chunk_size self ->
  (start + chunk_size self < len text /\ window_end self text start <= len text)
  \/ (len text <= start + chunk_size self
      /\ window_end self text start = start + chunk_size self).
Proof.
  intros Hs HC. unfold window_end.
  destruct (Z.ltb_spec (start + chunk_size self) (len text)); [left|right; lia].
  split; [done|].
  pose proof (find_sentence_boundary_le text start (start + chunk_size self)).
  destruct (Z.ltb_spec start
              (_find_sentence_boundary text start (start + chunk_size self))); lia.
Qed.

Lemma chunk_loop_done (fuel : nat) (start : Z) (chunks : list ContentChunk) :
  len text <= start ->
  chunk_loop fuel self text source source_type metadata start chunks = Some chunks.
Proof.
  intros H. destruct fuel; simpl; destruct (Z.ltb_spec start (len text)); done || lia.
Qed.

(** More fuel does not change a result. *)
Lemma chunk_loop_fuel_mono (fuel fuel' : nat) (start : Z)
    (chunks r : list ContentChunk) :
  (fuel <= fuel')%nat ->
  chunk_loop fuel self text source source_type metadata start chunks = Some r ->
  chunk_loop fuel' self text source source_type metadata start chunks = Some r.
Proof.
  revert fuel' start chunks.
  induction fuel as [|fuel IH]; intros fuel' start chunks Hle; simpl.
  - destruct (Z.ltb_spec start (len text)); [done|].
    intros [= <-]. by apply chunk_loop_done.
  - destruct fuel' as [|fuel']; [lia|]. simpl.
    destruct (start <? len text); [|done].
    apply IH. lia.
Qed.

(** The loop returns: [start] grows with every iteration. *)
Lemma chunk_loop_terminates (fuel : nat) (start : Z) (chunks : list ContentChunk) :
  1 <= chunk_size self ->
  (Z.to_nat (len text - start) <= fuel)%nat ->
  exists r,
    chunk_loop fuel self text source source_type metadata start chunks = Some r.
Proof.
  intros HC. revert start chunks.
  induction fuel as [|fuel IH]; intros start chunks Hfuel; simpl.
  - destruct (Z.ltb_spec start (len text)); [lia|eauto].
  - destruct (Z.ltb_spec start (len text)); [|eauto].
    apply IH. pose proof (window_end_gt start HC). lia.
Qed.

Lemma spans_from_weaken (lb lb' : Z) (l : list ContentChunk) :
  lb' <= lb -> spans_from lb l -> spans_from lb' l.
Proof.
  intros Hle. destruct l as [|c l]; simpl; [done|].
  intros (s & e & Hspan & Hs & He & Hrest). exists s, e. repeat split; try done. lia.
Qed.

Lemma ceil_div_step (a d : Z) :
  1 <= d -> 1 <= a -> 1 + Z.max 0 (ceil_div (a - d) d) <= Z.max 0 (ceil_div a d).
Proof.
  intros Hd Ha. unfold ceil_div.
  replace (a + d - 1) with ((a - d + d - 1) + 1 * d) by lia.
  rewrite Z.div_add by lia.
  assert (0 <= (a - d + d - 1) / d) by (apply Z.div_pos; lia). lia.
Qed.

Lemma ceil_div_mono (a b d : Z) :
  1 <= d -> a <= b -> Z.max 0 (ceil_div a d) <= Z.max 0 (ceil_div b d).
Proof.
  intros Hd Hab. unfold ceil_div.
  assert ((a + d - 1) / d <= (b + d - 1) / d) by (apply Z.div_le_mono; lia). lia.
Qed.

Lemma ceil_div_nonpos (a d : Z) :
  1 <= d -> a <= 0 -> Z.max 0 (ceil_div a d) = 0.
Proof.
  intros Hd Ha. unfold ceil_div.
  assert ((a + d - 1) / d <= 0); [|lia].
  assert ((a + d - 1) / d < 1); [|lia].
  apply Z.div_lt_upper_bound; lia.
Qed.

(** What the loop appends, started at [start] with [chunks] collected
    so far: spans in increasing order without overlap, at most one
    chunk per stride, and, when the text ends in a non-blank character,
    a last chunk whose recorded end is not before the end of the text. *)
Lemma chunk_loop_spec (fuel : nat) (start : Z) (chunks r : list ContentChunk) :
  0 < overlap_size self -> overlap_size self < chunk_size self ->
  0 <= start ->
  chunk_loop fuel self text source source_type metadata start chunks = Some r ->
  exists new,
    r = chunks ++ new
    /\ spans_from start new
    /\ len new <= Z.max 0 (ceil_div (len text - start)
                             (chunk_size self - overlap_size self))
    /\ (start < len text ->
        (exists c, last text = Some c /\ isspace c = false) ->
        exists cl s e, last new = Some cl /\ span cl = Some (s, e) /\ len text <= e).
Proof.
  intros HO HC. revert start chunks.
  induction fuel as [|fuel IH]; intros start chunks Hstart; simpl.
  - destruct (Z.ltb_spec start (len text)); [done|]. intros [= <-].
    exists []. rewrite app_nil_r. repeat split; [|lia].
    apply Z.le_max_l.
  - destruct (Z.ltb_spec start (len text)) as [Hlt|Hge].
    2:{ intros [= <-]. exists []. rewrite app_nil_r. repeat split; [|lia].
        apply Z.le_max_l. }
    unfold chunk_step.
    pose proof (window_end_gt start ltac:(lia)) as Hgt.
    pose proof (window_end_range start Hstart ltac:(lia)) as Hrange.
    set (end_ := window_end self text start) in *.
    set (start' := Z.max (start + chunk_size self - overlap_size self) end_).
    set (piece := strip (slice text start end_)).
    intros Hloop.
    assert (0 <= start') as Hstart' by lia.
    apply IH in Hloop as (new' & -> & Hspans & Hcount & Hlast); [|done].
    assert (len new' <= Z.max 0 (ceil_div (len text - start - (chunk_size self - overlap_size self))
                                   (chunk_size self - overlap_size self))) as Hcount'.
    { etrans; [exact Hcount|]. apply ceil_div_mono; lia. }
    pose proof (ceil_div_step (len text - start)
                  (chunk_size self - overlap_size self) ltac:(lia) ltac:(lia)) as Hstep.
    assert (spans_from end_ new') as Hspans'.
    { eapply spans_from_weaken; [|exact Hspans]. lia. }
    assert (len text <= start' -> new' = [] /\ len text <= end_) as Hfinal.
    { intros Hdone. split.
      - rewrite ceil_div_nonpos in Hcount by lia.
        destruct new'; [done|]. unfold len in Hcount. simpl in Hcount. lia.
      - lia. }
    destruct (truthy piece) eqn:Hpiece.
    + eexists (_ :: new'). split; [by rewrite <- app_assoc|].
      split.
      { simpl. exists start, end_. rewrite span_new_chunk. repeat split; [lia|lia|done]. }
      split.
      { unfold len in *. simpl. lia. }
      intros _ Hnb.
      destruct (Z.lt_ge_cases start' (len text)) as [Hmore|Hdone].
      * destruct (Hlast Hmore Hnb) as (cl & s & e & Hcl & Hspan & He).
        exists cl, s, e. split; [|done].
        destruct new' as [|c0 new']; [done|]. by rewrite last_cons, Hcl.
      * destruct (Hfinal Hdone) as [-> Hend].
        eexists _, start, end_. split; [done|].
        by rewrite span_new_chunk.
    + exists new'. split; [done|].
      split.
      { eapply spans_from_weaken; [|exact Hspans']. lia. }
      split; [lia|].
      intros _ Hnb.
      destruct (Z.lt_ge_cases start' (len text)) as [Hmore|Hdone].
      * exact (Hlast Hmore Hnb).
      * exfalso. destruct (Hfinal Hdone) as [_ Hend].
        destruct Hnb as (c & Hc & Hsp).
        apply last_Some in Hc as [text0 ->].
        subst piece. rewrite slice_suffix in Hpiece by lia.
        rewrite drop_app_le in Hpiece.
        2:{ rewrite len_app in Hlt. unfold len in Hlt. simpl in Hlt. lia. }
        by rewrite strip_snoc_truthy in Hpiece.
Qed.

(** Every later chunk of a span-ordered list starts at or after the
    end of every earlier one. *)
Lemma spans_from_lookup (lb : Z) (l : list ContentChunk) (j : nat) (c : ContentChunk) :
  spans_from lb l -> l !! j = Some c ->
  exists s e, span c = Some (s, e) /\ lb <= s /\ s < e.
Proof.
  revert lb j. induction l as [|c0 l IH]; intros lb j; simpl; [done|].
  intros (s & e & Hspan & Hs & He & Hrest). destruct j as [|j]; simpl.
  - intros [= <-]. eauto.
  - intros Hj. destruct (IH e j Hrest Hj) as (s' & e' & ? & ? & ?).
    exists s', e'. repeat split; [done|lia|done].
Qed.

Lemma spans_from_ordered (lb : Z) (l : list ContentChunk) (i j : nat)
    (ci cj : ContentChunk) :
  spans_from lb l -> (i < j)%nat -> l !! i = Some ci -> l !! j = Some cj ->
  exists si ei sj ej,
    span ci = Some (si, ei) /\ span cj = Some (sj, ej) /\ ei <= sj /\ sj < ej.
Proof.
  revert lb i j. induction l as [|c0 l IH]; intros lb i j; simpl; [done|].
  intros (s & e & Hspan & Hs & He & Hrest) Hij.
  destruct j as [|j]; [lia|]. destruct i as [|i]; simpl.
  - intros [= <-] Hj.
    destruct (spans_from_lookup e l j cj Hrest Hj) as (sj & ej & ? & ? & ?).
    exists s, e, sj, ej. done.
  - intros Hi Hj. apply (IH e i j Hrest); [lia|done|done].
Qed.

End Chunking.

(** ** Chunking a text *)

Section ChunkText.

Import ContentProcessor Spec Examples.

(** C4 (the code at the input of the example): 250 letters [a],
    [chunk_size = 100], [overlap_size = 20].  Three chunks are
    produced, recorded as [0, 100), [100, 200) and [200, 300), of 100,
    100 and 50 characters: the second chunk starts at 100 and not at
    80, the third at 200 and not at 160, and its recorded end is 300,
    past the end of the text. *)
Theorem chunk_text_250_spans :
  (map (fun c => (span c, len (content c)))) <$>
    chunk_text 250 (mk 100 20) text250 "doc" "file" None
  = Some [(Some (0, 100), 100); (Some (100, 200), 100); (Some (200, 300), 50)].
Proof. vm_compute. reflexivity. Qed.

(** No two chunks of one text overlap, whatever [overlap_size] is:
    a later chunk starts at or after the recorded end of an earlier
    one. *)
Lemma chunks_never_overlap (fuel : nat) (self : t) (text : str)
    (source source_type : string) (metadata : option (gmap string value))
    (chunks : list ContentChunk) (i j : nat) (ci cj : ContentChunk) :
  0 < overlap_size self -> overlap_size self < chunk_size self ->
  chunk_text fuel self text source source_type metadata = Some chunks ->
  (i < j)%nat -> chunks !! i = Some ci -> chunks !! j = Some cj ->
  exists si ei sj ej,
    span ci = Some (si, ei) /\ span cj = Some (sj, ej) /\ ei <= sj.
Proof.
  intros HO HC. unfold chunk_text.
  destruct (negb (truthy text) || (len text <? chunk_size self)).
  - intros [= <-] Hij _ Hj. destruct j as [|j]; [lia|]. done.
  - intros Hloop Hij Hi Hj.
    apply chunk_loop_spec in Hloop as (new & -> & Hspans & _); [|done..].
    simpl in Hi, Hj.
    destruct (spans_from_ordered 0 new i j ci cj Hspans Hij Hi Hj)
      as (si & ei & sj & ej & ? & ? & ? & ?).
    by exists si, ei, sj, ej.
Qed.

(** C5 (as stated, refuted): for the 250 letters, [C = 100 > O = 20 > 0],
    the recorded end of the final chunk is 300, not the length 250. *)
Lemma final_chunk_end_is_not_length :
  0 < 20 /\ 20 < 100 /\ len text250 = 250
  /\ exists chunks cl,
       chunk_text 250 (mk 100 20) text250 "doc" "file" None = Some chunks
       /\ last chunks = Some cl
       /\ chunk_end cl = Some 300
       /\ chunk_end cl <> Some (len text250).
Proof.
  split; [lia|]. split; [lia|]. split; [reflexivity|].
  eexists _, _. split; [vm_compute; reflexivity|].
  split; [reflexivity|]. split; [vm_compute; reflexivity|].
  vm_compute. discriminate.
Qed.

(** C5 (amended): for a text of length [L] and [C > O > 0], [chunk_text]
    returns (any fuel of at least [L] iterations gives the same list);
    the recorded ends of the chunks are strictly increasing, hence
    non-decreasing, along the list; the number of chunks is at most
    [ceil(L / (C - O)) + 1]; and when [L >= C] and the text ends in a
    non-blank character, the recorded end of the final chunk is at
    least [L]. *)
Theorem chunk_text_terminates_ordered_bounded (self : t) (text : str)
    (source source_type : string) (metadata : option (gmap string value)) :
  0 < overlap_size self -> overlap_size self < chunk_size self ->
  exists chunks,
    (forall fuel, (length text <= fuel)%nat ->
       chunk_text fuel self text source source_type metadata = Some chunks)
    /\ (forall i j ci cj, (i < j)%nat ->
          chunks !! i = Some ci -> chunks !! j = Some cj ->
          exists ei ej,
            chunk_end ci = Some ei /\ chunk_end cj = Some ej /\ ei < ej)
    /\ len chunks
       <= ceil_div (len text) (chunk_size self - overlap_size self) + 1
    /\ (chunk_size self <= len text ->
        (exists c, last text = Some c /\ isspace c = false) ->
        exists cl e,
          last chunks = Some cl /\ chunk_end cl = Some e /\ len text <= e).
Proof.
  intros HO HC. pose proof (len_nonneg text) as HL.
  assert (0 <= ceil_div (len text) (chunk_size self - overlap_size self)) as Hceil.
  { unfold ceil_div. apply Z.div_pos; lia. }
  unfold chunk_text.
  destruct (negb (truthy text) || (len text <? chunk_size self)) eqn:Hsmall.
  - eexists. split; [done|]. split.
    { intros i j ci cj Hij _ Hj. destruct j as [|j]; [lia|]. done. }
    split.
    { unfold len at 1. simpl. lia. }
    intros Hlen (c & Hc & _). exfalso.
    apply orb_true_iff in Hsmall as [Hempty|Hlt].
    + apply negb_true_iff, truthy_false in Hempty. by subst text.
    + apply Z.ltb_lt in Hlt. lia.
  - apply orb_false_iff in Hsmall as [_ Hge]. apply Z.ltb_ge in Hge.
    destruct (chunk_loop_terminates self text source source_type metadata
                (length text) 0 []) as [r Hr]; [lia|unfold len; lia|].
    exists r. split.
    { intros fuel Hfuel. by eapply chunk_loop_fuel_mono. }
    apply chunk_loop_spec in Hr as (new & -> & Hspans & Hcount & Hlast);
      [|done..].
    simpl. split.
    { intros i j ci cj Hij Hi Hj.
      destruct (spans_from_ordered 0 new i j ci cj Hspans Hij Hi Hj)
        as (si & ei & sj & ej & Hsi & Hsj & ? & ?).
      destruct (spans_from_lookup 0 new i ci Hspans Hi) as (s & e & Hs & ? & ?).
      exists ei, ej.
      rewrite (span_chunk_end ci si ei Hsi), (span_chunk_end cj sj ej Hsj).
      rewrite Hsi in Hs. injection Hs as <- <-.
      repeat split. lia. }
    split.
    { rewrite Z.sub_0_r in Hcount. lia. }
    intros _ Hnb.
    destruct Hlast as (cl & s & e & Hcl & Hspan & He); [|done|].
    { destruct Hnb as (c & Hc & _). destruct text; [done|].
      unfold len. simpl. lia. }
    exists cl, e. by rewrite (span_chunk_end cl s e Hspan).
Qed.

(** The properties at the 250 letters with [C = 100] and [O = 20]. *)
Lemma chunk_text_terminates_ordered_bounded_witness :
  0 < 20 /\ 20 < 100
  /\ exists chunks,
    (forall fuel, (length text250 <= fuel)%nat ->
       chunk_text fuel (mk 100 20) text250 "doc" "file" None = Some chunks)
    /\ (forall i j ci cj, (i < j)%nat ->
          chunks !! i = Some ci -> chunks !! j = Some cj ->
          exists ei ej,
            chunk_end ci = Some ei /\ chunk_end cj = Some ej /\ ei < ej)
    /\ len chunks <= ceil_div (len text250) (100 - 20) + 1
    /\ (100 <= len text250 ->
        (exists c, last text250 = Some c /\ isspace c = false) ->
        exists cl e,
          last chunks = Some cl /\ chunk_end cl = Some e /\ len text250 <= e).
Proof.
  split; [lia|]. split; [lia|].
  apply (chunk_text_terminates_ordered_bounded (mk 100 20) text250
           "doc" "file" None); simpl; lia.
Defined.

End ChunkText.

(** ** Construction of the chunker *)

Section Construction.

Import ContentProcessor.

(** C6 (as stated, refuted): with [chunk_size = 100 <= overlap_size = 200]
    the constructor does not raise; it returns a chunker. *)
Lemma init_accepts_small_chunk_size :
  100 <= 200 /\ ~ (exists e, __init__ 100 200 = inl e).
Proof.
  split; [lia|]. intros [e He]. discriminate He.
Qed.

(** C6 (amended): the constructor performs no validation: for every
    pair of integers, also when [chunk_size <= overlap_size], it
    succeeds and the chunker holds exactly the two values given. *)
Theorem init_always_succeeds (c o : Z) :
  exists self, __init__ c o = inr self
               /\ chunk_size self = c /\ overlap_size self = o.
Proof. eexists; repeat split. Qed.

(** What the missing validation costs, and what it does not: a chunk
    size of at least 1 is enough for the loop to return, whatever the
    overlap is ... *)
Lemma chunk_text_returns_for_positive_size (self : t) (text : str)
    (source source_type : string) (metadata : option (gmap string value)) :
  1 <= chunk_size self ->
  exists chunks,
    chunk_text (length text) self text source source_type metadata = Some chunks.
Proof.
  intros HC. unfold chunk_text.
  destruct (negb (truthy text) || (len text <? chunk_size self)); [by eexists|].
  apply chunk_loop_terminates; [done|unfold len; lia].
Qed.

(** ... whereas a chunk size of 0 is accepted by the constructor and
    makes the loop stall on a text without sentence terminators: [start]
    stays at 0 and no amount of fuel yields a result. *)
Lemma chunk_text_stalls_for_zero_size (fuel : nat) :
  __init__ 0 0 = inr (mk 0 0)
  /\ chunk_text fuel (mk 0 0) (lit "a") "doc" "file" None = None.
Proof.
  split; [done|]. unfold chunk_text. simpl.
  induction fuel as [|fuel IH]; [done|]. exact IH.
Qed.

End Construction.

(** ** The orchestrator *)

Section Routing.

Import Orchestrator Spec.



















Lemma mapM_ok {A B} (f : A -> result B) (l : list A) :
  (forall x, x ∈ l -> exists y, f x = inr y) -> exists l', mapM f l = inr l'.
Proof.
  induction l as [|x0 l IH]; intros Hall; simpl; [by eexists|].
  destruct (Hall x0 ltac:(by left)) as [y0 ->]. simpl.
  destruct IH as [ys ->]; [|by eexists].
  intros x Hx. apply Hall. by right.
Qed.




End Routing.

Section ProcessQuery.

Import Orchestrator Spec Examples.





End ProcessQuery.

Section OrchestratorInit.

Import Orchestrator Spec Examples.

Lemma register_all_raised (ctors : list (AgentType * result Agent))
    (agents agents' : list (AgentType * Agent)) (e : exn) :
  register_all ctors agents = (agents', Some e) ->
  exists ty, (ty, inl e) ∈ ctors.
Proof.
  revert agents. induction ctors as [|[ty [e0|a]] ctors IH]; intros agents; simpl.
  - done.
  - intros [= _ <-]. exists ty. by left.
  - intros H. destruct (IH _ H) as [ty' Hin]. exists ty'. by right.
Qed.

(** The constructor binds [llm_client] and [agents] and leaves the
    instance without an attribute [openai_client]. *)
Lemma init_attributes (llm : LLMClient) (ctor : AgentType -> result Agent) (self : t) :
  __init__ llm ctor = inr self ->
  llm_client self = Some llm /\ openai_client self = None.
Proof.
  unfold __init__. destruct (_initialize_agents ctor); simpl; [done|].
  by intros [= <-].
Qed.

(** The constructor raises only what an agent constructor raised outside
    [Exception]. *)
Lemma init_raise (llm : LLMClient) (ctor : AgentType -> result Agent) (e : exn) :
  __init__ llm ctor = inl e ->
  is_Exception e = false /\ exists ty, ctor ty = inl e.
Proof.
  unfold __init__, _initialize_agents.
  destruct (register_all _ []) as [agents [e0|]] eqn:Hreg; simpl; [|done].
  unfold try_except. destruct (is_Exception e0) eqn:He0; simpl; [done|].
  intros [= <-]. split; [done|].
  apply register_all_raised in Hreg as [ty Hin].
  apply list_elem_of_fmap in Hin as (ty' & [= -> Hc] & _). by exists ty'.
Qed.

End OrchestratorInit.

Section ProcessQueryClaims.

Import Orchestrator Spec Examples.








(** The fan-out example: source A raises "connection refused", source
    B returns three records. *)
Example fan_out_two_sources :
  exists w,
    process_query two_sources ask_both 0%Q = inr w
    /\ results w
       = [mkAgentResponse JIRA false [] (Some (lit "connection refused")) None;
          mkAgentResponse GITHUB true [item 1; item 2; item 3] None None]
    /\ total_results w = 3.
Proof. eexists. split; [reflexivity|]. split; reflexivity. Qed.

(** With the completion backend down, the summary of the same run is
    the deterministic one. *)
Example fan_out_two_sources_summary :
  summary <$> (match process_query two_sources ask_both 0%Q with
               | inr w => Some w
               | inl _ => None
               end)
  = Some (lit "Successfully searched: github. Failed to search: jira. Total results found: 3.").
Proof. vm_compute. reflexivity. Qed.

(** Without a selection by request and without a statically relevant
    source, the orchestrator as constructed raises in the router, at the
    read of an attribute its constructor never binds. *)
Lemma determine_relevant_agents_raises (llm : LLMClient)
    (ctor : AgentType -> result Agent) (self : t) (query : str)
    (specific_sources : option (list AgentType)) :
  __init__ llm ctor = inr self ->
  default [] specific_sources = [] ->
  static_relevant self query = inr [] ->
  _determine_relevant_agents self query specific_sources
  = inl (AttributeError "openai_client").
Proof.
  intros Hinit Hnone Hstatic. apply init_attributes in Hinit as [_ Hattr].
  unfold _determine_relevant_agents, get_openai_client.
  rewrite Hnone, Hstatic, Hattr. reflexivity.
Qed.

(** Had the attribute been bound to [None], the broadcast fallback
    would have selected every registered source. *)
Lemma determine_relevant_agents_broadcast (self : t) (query : str) :
  openai_client self = Some VNone ->
  static_relevant self query = inr [] ->
  agents self <> [] ->
  _determine_relevant_agents self query None = inr (keys (agents self)).
Proof.
  intros Hattr Hstatic Hne. unfold _determine_relevant_agents, get_openai_client.
  simpl. rewrite Hstatic, Hattr. simpl. reflexivity.
Qed.

(** C2 (the code at a failing input): seven registered sources, none
    relevant to "hello", no explicit source list.  The router raises
    [AttributeError] instead of selecting all sources, and
    [process_query] answers with the failure response: no source is
    queried. *)
Theorem broadcast_fallback_not_reached :
  __init__ llm_down (fun ty => inr (quiet ty)) = inr quiet_orchestrator
  /\ keys (agents quiet_orchestrator) = all_types
  /\ static_relevant quiet_orchestrator (prompt hello) = inr []
  /\ _determine_relevant_agents quiet_orchestrator (prompt hello)
       (specific_sources hello)
     = inl (AttributeError "openai_client")
  /\ forall elapsed,
       process_query quiet_orchestrator hello elapsed
       = inr (mkWorkflowResponse (lit "hello") [] []
                (lit "Query processing failed: 'AgenticOrchestrator' object has no attribute 'openai_client'")
                0 elapsed).
Proof. repeat split. Qed.

End ProcessQueryClaims.

Section HealthCheck.

Import Orchestrator Spec Examples.

(** The loop over the agents raises only what a health check raised
    outside [Exception]. *)
Lemma health_loop_raise (l : list (AgentType * Agent))
    (acc : gmap string health_entry) (e : exn) :
  health_loop l acc = inl e ->
  is_Exception e = false
  /\ exists ty agent, (ty, agent) ∈ l /\ agent_health_check agent = inl e.
Proof.
  revert acc. induction l as [|[ty a] l IH]; intros acc; simpl; [done|].
  unfold probe, try_except.
  destruct (agent_health_check a) as [e0|h] eqn:Hh; simpl.
  - destruct (is_Exception e0) eqn:He0; simpl.
    + intros H. destruct (IH _ H) as (He & ty' & a' & Hin & Hr).
      split; [done|]. exists ty', a'. split; [by right|done].
    + intros [= <-]. split; [done|]. exists ty, a. split; [by left|done].
  - intros H. destruct (IH _ H) as (He & ty' & a' & Hin & Hr).
    split; [done|]. exists ty', a'. split; [by right|done].
Qed.

(** C9 (the code on every orchestrator as constructed): whenever the
    constructor returns an orchestrator, [health_check] on it raises and
    returns no map: it raises [AttributeError] at the read of
    [self.openai_client], after the per-source map has been built, unless
    a source's health check has raised something that is not an instance
    of [Exception] before.  (The constructor itself raises only what an
    agent constructor raised outside [Exception].) *)
Theorem health_check_raises (llm : LLMClient) (ctor : AgentType -> result Agent) :
  match __init__ llm ctor with
  | inr self =>
      exists e,
        health_check self = inl e
        /\ (e = AttributeError "openai_client"
            \/ (is_Exception e = false
                /\ exists ty agent,
                     (ty, agent) ∈ agents self
                     /\ agent_health_check agent = inl e))
  | inl e => is_Exception e = false /\ exists ty, ctor ty = inl e
  end.
Proof.
  destruct (__init__ llm ctor) as [e|self] eqn:Hinit.
  - by apply init_raise in Hinit.
  - apply init_attributes in Hinit as [_ Hattr].
    unfold health_check, health_status, get_openai_client.
    destruct (health_loop (agents self) ∅) as [e|report] eqn:Hloop; simpl.
    + exists e. split; [done|]. right. by apply health_loop_raise in Hloop.
    + rewrite Hattr. simpl. eexists. split; [done|]. by left.
Qed.

Lemma health_loop_keeps (l : list (AgentType * Agent))
    (acc report : gmap string health_entry) (key : string) :
  health_loop l acc = inr report ->
  is_Some (acc !! key) -> is_Some (report !! key).
Proof.
  revert acc. induction l as [|[k a] l IH]; intros acc; simpl.
  - by intros [= <-].
  - destruct (probe a) as [e|entry]; simpl; [done|].
    intros Hloop Hacc. apply (IH _ Hloop).
    rewrite lookup_insert. by case_decide.
Qed.

Lemma health_loop_covers (self : t) (l : list (AgentType * Agent))
    (acc report : gmap string health_entry) (ty : AgentType) :
  health_loop l acc = inr report ->
  is_Some (dict_get l ty) -> is_Some (report !! value_of ty).
Proof.
  unfold dict_get. revert acc.
  induction l as [|[k a] l IH]; intros acc; simpl.
  - intros _ [? H]. done.
  - destruct (probe a) as [e|entry]; simpl; [done|].
    case_bool_decide as Hk; simpl in *.
    + subst k. intros Hloop _. apply (health_loop_keeps _ _ _ _ Hloop).
      by rewrite lookup_insert_eq.
    + apply IH.
Qed.

(** With the attribute bound, a report returned by the same method has
    an entry for every registered source. *)
Lemma health_check_covers (self : t) (v : value) (report : health_report) :
  openai_client self = Some v ->
  health_check self = inr report ->
  forall ty, registered self ty -> is_Some (report_agents report !! value_of ty).
Proof.
  intros Hattr. unfold health_check, health_status, get_openai_client.
  rewrite Hattr.
  destruct (health_loop (agents self) ∅) as [e|entries] eqn:Hloop; simpl; [done|].
  intros [= <-] ty Hty. simpl. by eapply health_loop_covers.
Qed.

(** ... and the method returns when no health check raises outside
    [Exception]. *)
Lemma health_check_returns (self : t) (v : value) :
  openai_client self = Some v ->
  (forall ty agent e, (ty, agent) ∈ agents self ->
                      agent_health_check agent = inl e -> is_Exception e = true) ->
  exists report, health_check self = inr report.
Proof.
  intros Hattr Hprobes. unfold health_check, health_status, get_openai_client.
  rewrite Hattr.
  destruct (health_loop (agents self) ∅) as [e|entries] eqn:Hloop; simpl;
    [|by eexists].
  apply health_loop_raise in Hloop as (He & ty & agent & Hin & Hh).
  rewrite (Hprobes ty agent e Hin Hh) in He. done.
Qed.

End HealthCheck.

(** ** The content index: reads *)

Section IndexReads.

Import ContentProcessor ContentIndex Spec.

Lemma extends_refl (s : state) : extends s s.
Proof. by repeat split. Qed.

Lemma extends_dom (s s' : state) (r : loc) :
  extends s s' -> r ∈ dom (store s) -> r ∈ dom (store s').
Proof.
  intros (_ & _ & _ & Hstore) Hr. apply elem_of_dom.
  rewrite (Hstore r Hr). by apply elem_of_dom.
Qed.

Lemma extends_trans (s1 s2 s3 : state) :
  extends s1 s2 -> extends s2 s3 -> extends s1 s3.
Proof.
  intros H12 H23. pose proof (fun r => extends_dom s1 s2 r H12) as Hdom.
  destruct H12 as (Hc & Hs & Ht & Hstore), H23 as (Hc' & Hs' & Ht' & Hstore').
  repeat split; [congruence..|].
  intros r Hr. rewrite Hstore' by eauto. by apply Hstore.
Qed.

Lemma extends_contents (s s' : state) (r : loc) :
  extends s s' -> r ∈ dom (store s) -> contents s' r = contents s r.
Proof. intros (_ & _ & _ & Hstore) Hr. unfold contents. by rewrite Hstore. Qed.

(** A state that only gained lists shows the same three views. *)
Lemma extends_same_views (s s' : state) :
  wf s -> extends s s' -> same_views s s'.
Proof.
  intros Hwf Hext. pose proof Hext as (Hc & Hs & Ht & Hstore).
  unfold same_views, view_chunks, view_by_source, view_by_type.
  rewrite Hc, Hs, Ht. split; [|split].
  - apply extends_contents; [done|apply Hwf].
  - apply map_eq. intros k. rewrite !lookup_fmap.
    destruct (index_by_source s !! k) as [r|] eqn:Hk; simpl; [|done].
    f_equal. apply extends_contents; [done|]. by eapply wf_source.
  - apply map_eq. intros k. rewrite !lookup_fmap.
    destruct (index_by_type s !! k) as [r|] eqn:Hk; simpl; [|done].
    f_equal. apply extends_contents; [done|]. by eapply wf_type.
Qed.

Lemma extends_wf (s s' : state) : wf s -> extends s s' -> wf s'.
Proof.
  intros Hwf Hext. pose proof Hext as (Hc & Hs & Ht & Hstore).
  destruct Hwf. split; rewrite ?Hc, ?Hs, ?Ht; eauto using extends_dom.
Qed.

Lemma alloc_spec (l : list ContentChunk) (s : state) :
  extends s (snd (alloc l s))
  /\ (fst (alloc l s) ∉ dom (store s))
  /\ store (snd (alloc l s)) !! (fst (alloc l s)) = Some l.
Proof.
  unfold alloc. simpl. pose proof (is_fresh (dom (store s))) as Hfresh.
  split; [|split; [done|by rewrite lookup_insert_eq]].
  repeat split. intros r Hr. simpl. rewrite lookup_insert_ne; [done|].
  intros <-. done.
Qed.

Lemma get_bucket_spec (index : gmap string loc) (k : string) (s : state) :
  (forall r, index !! k = Some r -> r ∈ dom (store s)) ->
  extends s (snd (get_bucket index k s))
  /\ fst (get_bucket index k s) ∈ dom (store (snd (get_bucket index k s)))
  /\ contents (snd (get_bucket index k s)) (fst (get_bucket index k s))
     = default [] (contents s <$> index !! k)
  /\ (index !! k = None -> fst (get_bucket index k s) ∉ dom (store s)).
Proof.
  intros Hin. unfold get_bucket. destruct (index !! k) as [r|] eqn:Hk; simpl.
  - split; [apply extends_refl|]. split; [by apply Hin|]. done.
  - destruct (alloc_spec [] s) as (Hext & Hfresh & Hcell).
    split; [done|]. split.
    + apply elem_of_dom. unfold alloc in *. simpl in *. by rewrite Hcell.
    + split; [|done]. unfold contents. unfold alloc in *. simpl in *.
      by rewrite Hcell.
Qed.

Lemma for_each_cons {A} (x : A) (l : list A) (body : A -> M unit) (s : state) :
  snd (for_each (x :: l) body s) = snd (for_each l body (snd (body x s))).
Proof. simpl. unfold bind. by destruct (body x s). Qed.

Lemma extend_from_type_eq (fl : loc) (ty : string) (s : state) :
  snd (extend_from_type fl ty s)
  = let '(bucket, s1) := get_bucket (index_by_type s) ty s in
    set_store (alter (fun l0 => l0 ++ contents s1 bucket) fl (store s1)) s1.
Proof.
  unfold extend_from_type, bind, get_self, deref, list_extend.
  by destruct (get_bucket (index_by_type s) ty s).
Qed.

(** The loop over [source_types] fills the fresh list with the
    requested buckets, in order, and touches no list of the index. *)
Lemma extend_loop_spec (types : list string) (s0 s : state) (fl : loc)
    (acc : list ContentChunk) :
  wf s0 -> extends s0 s -> fl ∉ dom (store s0) -> store s !! fl = Some acc ->
  extends s0 (snd (for_each types (extend_from_type fl) s))
  /\ store (snd (for_each types (extend_from_type fl) s)) !! fl
     = Some (acc ++ flat_map (fun ty => default [] (view_by_type s0 !! ty)) types).
Proof.
  intros Hwf. revert s acc.
  induction types as [|ty types IH]; intros s acc Hext Hfl Hacc.
  - simpl. by rewrite app_nil_r.
  - rewrite for_each_cons, extend_from_type_eq.
    pose proof Hext as (Hc & Hs & Ht & Hstore).
    destruct (get_bucket_spec (index_by_type s) ty s) as (Hext1 & Hin1 & Hcont & Hnew).
    { intros r Hr. rewrite Ht in Hr. eapply extends_dom; [done|].
      by eapply wf_type. }
    destruct (get_bucket (index_by_type s) ty s) as [bucket s1] eqn:Hb.
    simpl in *.
    assert (contents s1 bucket = default [] (view_by_type s0 !! ty)) as Hbucket.
    { rewrite Hcont. unfold view_by_type.
      rewrite lookup_fmap, Ht.
      destruct (index_by_type s0 !! ty) as [r|] eqn:Hty; simpl; [|done].
      apply extends_contents; [done|]. by eapply wf_type. }
    rewrite Hbucket.
    pose proof (extends_trans _ _ _ Hext Hext1) as Hext01.
    assert (store s1 !! fl = Some acc) as Hacc1.
    { destruct Hext1 as (_ & _ & _ & Hstore1). rewrite Hstore1; [done|].
      apply elem_of_dom. by rewrite Hacc. }
    rewrite app_assoc. apply IH.
    + destruct Hext01 as (Hc1 & Hs1 & Ht1 & Hstore01).
      unfold list_extend. simpl. repeat split; [done..|].
      intros r Hr. simpl. rewrite lookup_alter_ne; [by apply Hstore01|].
      intros <-. done.
    + done.
    + unfold list_extend. simpl. rewrite lookup_alter_eq, Hacc1. done.
Qed.

(** [search_chunks] computes its result from the scanned sequence and
    leaves a state that only gained lists. *)
Lemma search_chunks_eq (query : str) (source_types : option (list string))
    (max_results : Z) (s : state) :
  wf s ->
  exists s',
    search_chunks query source_types max_results s
    = (map fst (slice_to
                  (sort_reverse snd
                     (score_chunks (words_of query) (candidates s source_types)))
                  max_results), s')
    /\ extends s s'.
Proof.
  intros Hwf. unfold search_chunks, candidates, words_of.
  unfold bind at 1. unfold get_self. unfold bind at 1.
  destruct (truthy (default [] source_types)) eqn:Htypes.
  - unfold bind at 1.
    destruct (alloc_spec [] s) as (Hext & Hfresh & Hcell).
    destruct (alloc [] s) as [fl s1] eqn:Halloc. simpl in Hext, Hfresh, Hcell.
    unfold bind at 1.
    destruct (extend_loop_spec (default [] source_types) s s1 fl [] Hwf Hext Hfresh Hcell)
      as (Hext2 & Hfl).
    destruct (for_each (default [] source_types) (extend_from_type fl) s1)
      as [[] s2] eqn:Hloop.
    simpl in *. unfold ret, bind, deref. simpl. rewrite Hfl. simpl.
    exists s2. done.
  - unfold ret, bind, deref. simpl. eexists. split; [done|apply extends_refl].
Qed.

End IndexReads.

(** ** Scoring and ranking *)

Section Ranking.

Import ContentProcessor ContentIndex Spec.

Lemma Qltb_lt (x y : Q) : Qltb x y = true <-> (x < y)%Q.
Proof.
  unfold Qltb. rewrite negb_true_iff. split.
  - intros H. apply Qnot_le_lt. intros Hle.
    apply Qle_bool_iff in Hle. congruence.
  - intros H. destruct (Qle_bool y x) eqn:Hle; [|done].
    apply Qle_bool_iff in Hle. by apply Qlt_not_le in H.
Qed.

Lemma Qltb_ext (x x' y y' : Q) :
  (x == x')%Q -> (y == y')%Q -> Qltb x y = Qltb x' y'.
Proof.
  intros Hx Hy. apply eq_true_iff_eq. rewrite !Qltb_lt. by rewrite Hx, Hy.
Qed.

Lemma size_elements (X : gset str) : len (elements X) = Z.of_nat (size X).
Proof. reflexivity. Qed.

Lemma elements_filter (P : str -> Prop) `{!forall x, Decision (P x)} (X : gset str) :
  elements (filter P X) ≡ₚ filter P (elements X).
Proof.
  apply NoDup_Permutation.
  - apply NoDup_elements.
  - apply NoDup_filter, NoDup_elements.
  - intros x. rewrite elem_of_elements, elem_of_filter, list_elem_of_filter.
    by rewrite elem_of_elements.
Qed.

Lemma size_filter_elements (P : str -> Prop) `{!forall x, Decision (P x)}
    (X : gset str) :
  size (filter P X) = length (filter P (elements X)).
Proof. unfold size, set_size. simpl. by rewrite elements_filter. Qed.

Lemma foldl_count {A} (p : A -> bool) (l : list A) (a : Z) :
  foldl (fun acc x => if p x then acc + 1 else acc) a l
  = a + Z.of_nat (length (filter (fun x => p x = true) l)).
Proof.
  revert a. induction l as [|x l IH]; intros a; simpl; [lia|].
  rewrite IH. destruct (p x) eqn:Hp.
  - rewrite filter_cons_True by done. simpl. lia.
  - rewrite filter_cons_False by congruence. done.
Qed.

Lemma foldl_half {A} (p : A -> bool) (l : list A) (a : Q) :
  (foldl (fun acc x => if p x then acc + (1 # 2) else acc) a l
   == a + (1 # 2) * inject_Z (Z.of_nat (length (filter (fun x => p x = true) l))))%Q.
Proof.
  revert a. induction l as [|x l IH]; intros a; simpl.
  - ring.
  - rewrite IH. destruct (p x) eqn:Hp.
    + rewrite filter_cons_True by done. simpl length.
      rewrite Nat2Z.inj_succ, <- Z.add_1_r, inject_Z_plus. ring.
    + rewrite filter_cons_False by congruence. reflexivity.
Qed.

Lemma filter_length_ext {A} (P P' : A -> Prop) `{!forall x, Decision (P x)}
    `{!forall x, Decision (P' x)} (l : list A) :
  (forall x, x ∈ l -> P x <-> P' x) ->
  length (filter P l) = length (filter P' l).
Proof.
  intros Hext. f_equal. induction l as [|x l IH]; [done|].
  assert (filter P l = filter P' l) as IH'.
  { apply IH. intros y Hy. apply Hext. by right. }
  destruct (decide (P x)) as [Hx|Hx].
  - rewrite !filter_cons_True; [by f_equal|by apply Hext; [left|]|done].
  - rewrite !filter_cons_False; [done| |done].
    intros Hx'. apply Hx, Hext; [left|done].
Qed.

(** The code computes the score the specification describes. *)
Lemma calculate_relevance_score_spec (content : str) (query_words : gset str) :
  (_calculate_relevance_score content query_words
   == spec_score query_words content)%Q.
Proof.
  unfold _calculate_relevance_score, spec_score.
  rewrite size_elements, foldl_half, foldl_count.
  rewrite !size_filter_elements.
  rewrite (filter_length_ext
             (fun x => existsb (fun content_word => contains x content_word)
                         (elements (list_to_set (findall_w content) : gset str)) = true)
             (fun q => set_Exists (fun w => contains q w = true)
                         (list_to_set (findall_w content) : gset str))).
  2:{ intros q _. rewrite existsb_exists. unfold set_Exists.
      split; intros (w & Hw & Hc); exists w.
      - split; [|done]. apply elem_of_elements. by apply list_elem_of_In.
      - split; [|done]. apply list_elem_of_In. by apply elem_of_elements. }
  rewrite Z.add_0_l. ring.
Qed.

Lemma score_chunks_eq (query_words : gset str) (l : list ContentChunk) :
  let f c := _calculate_relevance_score (lower (content c)) query_words in
  score_chunks query_words l
  = map (fun c => (c, f c)) (filter (fun c => Qltb 0 (f c) = true) l).
Proof.
  intros f. unfold score_chunks. fold f.
  assert (forall acc,
             foldl (fun scored chunk =>
                      if Qltb 0 (f chunk) then scored ++ [(chunk, f chunk)]
                      else scored) acc l
             = acc ++ map (fun c => (c, f c))
                        (filter (fun c => Qltb 0 (f c) = true) l)) as Hfold.
  { induction l as [|c l IH]; intros acc; simpl.
    - by rewrite app_nil_r.
    - rewrite IH. destruct (Qltb 0 (f c)) eqn:Hc.
      + rewrite filter_cons_True by done. simpl. by rewrite <- app_assoc.
      + rewrite filter_cons_False by congruence. done. }
  apply Hfold.
Qed.

Section Sort.

Context {A : Type}.

Lemma insert_desc_ext (f g : A -> Q) (x : A) (l : list A) :
  (forall y, (f y == g y)%Q) -> insert_desc f x l = insert_desc g x l.
Proof.
  intros Hfg. induction l as [|y l IH]; simpl; [done|].
  rewrite (Qltb_ext (f x) (g x) (f y) (g y)) by done. by rewrite IH.
Qed.

(** The order depends on the keys only up to equality of rationals. *)
Lemma sort_reverse_ext (f g : A -> Q) (l : list A) :
  (forall y, (f y == g y)%Q) -> sort_reverse f l = sort_reverse g l.
Proof.
  intros Hfg. unfold sort_reverse. induction l as [|x l IH]; simpl; [done|].
  rewrite IH. by apply insert_desc_ext.
Qed.

Lemma insert_desc_pair (f : A -> Q) (x : A) (l : list A) :
  insert_desc snd (x, f x) (map (fun c => (c, f c)) l)
  = map (fun c => (c, f c)) (insert_desc f x l).
Proof.
  induction l as [|y l IH]; simpl; [done|].
  destruct (Qltb (f x) (f y)); simpl; [by rewrite IH|done].
Qed.

(** Sorting the pairs [(chunk, score)] on the score sorts the chunks
    on their score. *)
Lemma sort_reverse_pair (f : A -> Q) (l : list A) :
  sort_reverse snd (map (fun c => (c, f c)) l)
  = map (fun c => (c, f c)) (sort_reverse f l).
Proof.
  unfold sort_reverse. induction l as [|x l IH]; simpl; [done|].
  rewrite IH. apply insert_desc_pair.
Qed.

Lemma insert_desc_perm (f : A -> Q) (x : A) (l : list A) :
  insert_desc f x l ≡ₚ x :: l.
Proof.
  induction l as [|y l IH]; simpl; [done|].
  destruct (Qltb (f x) (f y)); [|done].
  rewrite IH. apply Permutation_swap.
Qed.

Lemma sort_reverse_perm (f : A -> Q) (l : list A) : sort_reverse f l ≡ₚ l.
Proof.
  unfold sort_reverse. induction l as [|x l IH]; simpl; [done|].
  by rewrite insert_desc_perm, IH.
Qed.

Lemma insert_desc_sorted (f : A -> Q) (x : A) (l : list A) :
  StronglySorted (fun a b => (f b <= f a)%Q) l ->
  StronglySorted (fun a b => (f b <= f a)%Q) (insert_desc f x l).
Proof.
  induction 1 as [|y l Hsorted IH Hall]; simpl.
  - repeat constructor.
  - destruct (Qltb (f x) (f y)) eqn:Hxy.
    + constructor; [done|].
      rewrite insert_desc_perm. constructor; [|done].
      apply Qltb_lt in Hxy. by apply Qlt_le_weak.
    + assert (f y <= f x)%Q as Hle.
      { apply Qnot_lt_le. intros Hlt. apply Qltb_lt in Hlt. congruence. }
      constructor; [by constructor|].
      constructor; [done|].
      eapply Forall_impl; [exact Hall|]. simpl. intros z Hz.
      by eapply Qle_trans.
Qed.

Lemma sort_reverse_sorted (f : A -> Q) (l : list A) :
  StronglySorted (fun a b => (f b <= f a)%Q) (sort_reverse f l).
Proof.
  unfold sort_reverse. induction l as [|x l IH]; simpl; [constructor|].
  by apply insert_desc_sorted.
Qed.

Lemma insert_desc_stable (f : A -> Q) (v : Q) (x : A) (l : list A) :
  filter (fun a => (f a == v)%Q) (insert_desc f x l)
  = filter (fun a => (f a == v)%Q) (x :: l).
Proof.
  induction l as [|y l IH]; simpl; [done|].
  destruct (Qltb (f x) (f y)) eqn:Hxy; [|done].
  apply Qltb_lt in Hxy.
  destruct (decide (f x == v)%Q) as [Hx|Hx].
  - assert (~ (f y == v)%Q) as Hy.
    { intros Hy. rewrite Hx, Hy in Hxy. by apply Qlt_irrefl in Hxy. }
    rewrite (filter_cons_False _ y) by done.
    rewrite IH. rewrite (filter_cons_True _ x) by done.
    rewrite (filter_cons_True _ x) by done.
    by rewrite (filter_cons_False _ y) by done.
  - rewrite (filter_cons_False _ x (y :: l)) by done.
    rewrite filter_cons, IH.
    rewrite (filter_cons_False _ x) by done.
    by rewrite filter_cons.
Qed.

(** Elements with equal keys keep their relative order. *)
Lemma sort_reverse_stable (f : A -> Q) (v : Q) (l : list A) :
  filter (fun a => (f a == v)%Q) (sort_reverse f l)
  = filter (fun a => (f a == v)%Q) l.
Proof.
  unfold sort_reverse. induction l as [|x l IH]; simpl; [done|].
  rewrite insert_desc_stable. by rewrite !filter_cons, IH.
Qed.

End Sort.

Lemma slice_to_map {A B} (f : A -> B) (l : list A) (hi : Z) :
  map f (slice_to l hi) = slice_to (map f l) hi.
Proof.
  unfold slice_to, slice, len. rewrite length_map.
  change (map f) with (fmap (M:=list) f).
  by rewrite fmap_take, fmap_drop.
Qed.

End Ranking.

(** ** The content index: ingestion *)

Section IndexWrites.

Import ContentProcessor ContentIndex Spec.

Lemma wf_init : wf __init__.
Proof.
  split; simpl; try (intros; by rewrite lookup_empty in * ).
  rewrite dom_singleton_L. by apply elem_of_singleton.
Qed.

Lemma snd_seq (m1 m2 : M unit) (s : state) :
  snd ((m1 ;; m2)%index s) = snd (m2 (snd (m1 s))).
Proof. unfold bind. by destruct (m1 s). Qed.

Lemma fmap_contents_ext (index : gmap string loc) (s s' : state) :
  (forall k r, index !! k = Some r -> contents s' r = contents s r) ->
  contents s' <$> index = contents s <$> index.
Proof.
  intros H. apply map_eq. intros k. rewrite !lookup_fmap.
  destruct (index !! k) as [r|] eqn:Hk; simpl; [|done]. f_equal. by eapply H.
Qed.

Lemma contents_append_eq (s : state) (r : loc) (c : ContentChunk) :
  r ∈ dom (store s) ->
  contents (set_store (alter (fun l => l ++ [c]) r (store s)) s) r
  = contents s r ++ [c].
Proof.
  intros Hr. apply elem_of_dom in Hr as [l Hl]. unfold contents. simpl.
  by rewrite lookup_alter_eq, Hl.
Qed.

Lemma contents_append_ne (s : state) (r r' : loc) (c : ContentChunk) :
  r <> r' ->
  contents (set_store (alter (fun l => l ++ [c]) r (store s)) s) r' = contents s r'.
Proof. intros Hr. unfold contents. simpl. by rewrite lookup_alter_ne. Qed.

Lemma wf_append (s : state) (r : loc) (c : ContentChunk) :
  wf s -> wf (set_store (alter (fun l => l ++ [c]) r (store s)) s).
Proof.
  intros []. split; simpl; rewrite ?dom_alter_L; eauto.
Qed.

Lemma append_to_chunks_spec (c : ContentChunk) (s : state) :
  wf s ->
  wf (snd (append_to_chunks c s))
  /\ view_chunks (snd (append_to_chunks c s)) = view_chunks s ++ [c]
  /\ view_by_source (snd (append_to_chunks c s)) = view_by_source s
  /\ view_by_type (snd (append_to_chunks c s)) = view_by_type s.
Proof.
  intros Hwf. unfold append_to_chunks, bind, get_self, list_append. simpl.
  split; [by apply wf_append|].
  split; [apply contents_append_eq, Hwf|].
  unfold view_by_source, view_by_type. simpl.
  split; apply fmap_contents_ext; intros k r Hk; apply contents_append_ne;
    intros <-.
  - by eapply wf_chunks_source.
  - by eapply wf_chunks_type.
Qed.

(** A new bucket: a fresh empty list under a key not yet present. *)
Lemma ensure_source_bucket_spec (k : string) (s : state) :
  wf s ->
  wf (snd (ensure_source_bucket k s))
  /\ is_Some (index_by_source (snd (ensure_source_bucket k s)) !! k)
  /\ view_chunks (snd (ensure_source_bucket k s)) = view_chunks s
  /\ view_by_source (snd (ensure_source_bucket k s))
     = <[k := default [] (view_by_source s !! k)]> (view_by_source s)
  /\ view_by_type (snd (ensure_source_bucket k s)) = view_by_type s.
Proof.
  intros Hwf. unfold ensure_source_bucket, bind, get_self.
  unfold view_by_source at 2 3. rewrite lookup_fmap.
  destruct (index_by_source s !! k) as [r|] eqn:Hk; simpl.
  - split; [done|]. split; [by rewrite Hk|]. split; [done|]. split; [|done].
    unfold view_by_source. symmetry. apply insert_id.
    by rewrite lookup_fmap, Hk.
  - pose proof (is_fresh (dom (store s))) as Hfresh.
    set (r := fresh (dom (store s))) in *.
    assert (forall order r', r' ∈ dom (store s) ->
              contents (mkState (<[r:=[]]> (store s)) (chunks s)
                          (<[k:=r]> (index_by_source s)) (index_by_type s)
                          order) r'
              = contents s r') as Hold.
    { intros order r' Hr'. unfold contents. simpl. rewrite lookup_insert_ne; [done|].
      intros <-. done. }
    split.
    { destruct Hwf. split; simpl; rewrite ?dom_insert_L.
      - set_solver.
      - intros k' r'. rewrite lookup_insert. case_decide.
        + intros [= <-]. set_solver.
        + intros Hk'. apply elem_of_union_r. eauto.
      - intros k' r' Hk'. apply elem_of_union_r. eauto.
      - intros k'. rewrite lookup_insert. case_decide; [|done].
        intros [= Heq]. rewrite Heq in Hfresh. done.
      - done.
      - intros k1 k2 r'. rewrite lookup_insert. case_decide.
        + intros [= <-] Hk2. apply Hfresh. eauto.
        + eauto.
      - intros k1 k2 r'. rewrite !lookup_insert.
        repeat case_decide; subst; try done.
        * intros [= <-] Hk2. exfalso. apply Hfresh. eauto.
        * intros Hk1 [= <-]. exfalso. apply Hfresh. eauto.
        * eauto.
      - done. }
    split; [by rewrite lookup_insert_eq|].
    split; [apply Hold, Hwf|].
    split.
    + unfold view_by_source. simpl. rewrite fmap_insert. f_equal.
      * unfold contents. simpl. by rewrite lookup_insert_eq.
      * apply fmap_contents_ext. intros k' r' Hk'. apply Hold.
        by eapply wf_source.
    + unfold view_by_type. simpl. apply fmap_contents_ext.
      intros k' r' Hk'. apply Hold. by eapply wf_type.
Qed.

Lemma append_to_source_bucket_spec (k : string) (c : ContentChunk) (s : state) :
  wf s -> is_Some (index_by_source s !! k) ->
  wf (snd (append_to_source_bucket k c s))
  /\ view_chunks (snd (append_to_source_bucket k c s)) = view_chunks s
  /\ view_by_source (snd (append_to_source_bucket k c s))
     = <[k := default [] (view_by_source s !! k) ++ [c]]> (view_by_source s)
  /\ view_by_type (snd (append_to_source_bucket k c s)) = view_by_type s.
Proof.
  intros Hwf [r Hk]. unfold append_to_source_bucket, bind, get_self.
  rewrite Hk. unfold list_append. simpl.
  split; [by apply wf_append|].
  split.
  { apply contents_append_ne. simpl. intros Heq. rewrite Heq in Hk.
    by eapply wf_chunks_source. }
  split.
  - unfold view_by_source. simpl. apply map_eq. intros k'.
    rewrite lookup_insert, !lookup_fmap. case_decide as Hkk.
    + subst k'. rewrite Hk. simpl. f_equal.
      apply contents_append_eq. by eapply wf_source.
    + destruct (index_by_source s !! k') as [r'|] eqn:Hk'; simpl; [|done].
      f_equal. apply contents_append_ne. intros <-.
      apply Hkk. by eapply wf_source_inj.
  - unfold view_by_type. simpl. apply fmap_contents_ext.
    intros k' r' Hk'. apply contents_append_ne. intros <-.
    by eapply wf_source_type.
Qed.

Lemma ensure_type_bucket_spec (k : string) (s : state) :
  wf s ->
  wf (snd (ensure_type_bucket k s))
  /\ is_Some (index_by_type (snd (ensure_type_bucket k s)) !! k)
  /\ view_chunks (snd (ensure_type_bucket k s)) = view_chunks s
  /\ view_by_source (snd (ensure_type_bucket k s)) = view_by_source s
  /\ view_by_type (snd (ensure_type_bucket k s))
     = <[k := default [] (view_by_type s !! k)]> (view_by_type s).
Proof.
  intros Hwf. unfold ensure_type_bucket, bind, get_self.
  unfold view_by_type at 2 3. rewrite lookup_fmap.
  destruct (index_by_type s !! k) as [r|] eqn:Hk; simpl.
  - split; [done|]. split; [by rewrite Hk|]. split; [done|]. split; [done|].
    unfold view_by_type. symmetry. apply insert_id.
    by rewrite lookup_fmap, Hk.
  - pose proof (is_fresh (dom (store s))) as Hfresh.
    set (r := fresh (dom (store s))) in *.
    assert (forall order r', r' ∈ dom (store s) ->
              contents (mkState (<[r:=[]]> (store s)) (chunks s)
                          (index_by_source s) (<[k:=r]> (index_by_type s))
                          order) r'
              = contents s r') as Hold.
    { intros order r' Hr'. unfold contents. simpl. rewrite lookup_insert_ne; [done|].
      intros <-. done. }
    split.
    { destruct Hwf. split; simpl; rewrite ?dom_insert_L.
      - set_solver.
      - intros k' r' Hk'. apply elem_of_union_r. eauto.
      - intros k' r'. rewrite lookup_insert. case_decide.
        + intros [= <-]. set_solver.
        + intros Hk'. apply elem_of_union_r. eauto.
      - done.
      - intros k'. rewrite lookup_insert. case_decide; [|done].
        intros [= Heq]. rewrite Heq in Hfresh. done.
      - intros k1 k2 r' Hk1. rewrite lookup_insert. case_decide.
        + intros [= <-]. apply Hfresh. eauto.
        + eauto.
      - done.
      - intros k1 k2 r'. rewrite !lookup_insert.
        repeat case_decide; subst; try done.
        * intros [= <-] Hk2. exfalso. apply Hfresh. eauto.
        * intros Hk1 [= <-]. exfalso. apply Hfresh. eauto.
        * eauto. }
    split; [by rewrite lookup_insert_eq|].
    split; [apply Hold, Hwf|].
    split.
    + unfold view_by_source. simpl. apply fmap_contents_ext.
      intros k' r' Hk'. apply Hold. by eapply wf_source.
    + unfold view_by_type. simpl. rewrite fmap_insert. f_equal.
      * unfold contents. simpl. by rewrite lookup_insert_eq.
      * apply fmap_contents_ext. intros k' r' Hk'. apply Hold.
        by eapply wf_type.
Qed.

Lemma append_to_type_bucket_spec (k : string) (c : ContentChunk) (s : state) :
  wf s -> is_Some (index_by_type s !! k) ->
  wf (snd (append_to_type_bucket k c s))
  /\ view_chunks (snd (append_to_type_bucket k c s)) = view_chunks s
  /\ view_by_source (snd (append_to_type_bucket k c s)) = view_by_source s
  /\ view_by_type (snd (append_to_type_bucket k c s))
     = <[k := default [] (view_by_type s !! k) ++ [c]]> (view_by_type s).
Proof.
  intros Hwf [r Hk]. unfold append_to_type_bucket, bind, get_self.
  rewrite Hk. unfold list_append. simpl.
  split; [by apply wf_append|].
  split.
  { apply contents_append_ne. simpl. intros Heq. rewrite Heq in Hk.
    by eapply wf_chunks_type. }
  split.
  - unfold view_by_source. simpl. apply fmap_contents_ext.
    intros k' r' Hk'. apply contents_append_ne. intros <-.
    by eapply wf_source_type.
  - unfold view_by_type. simpl. apply map_eq. intros k'.
    rewrite lookup_insert, !lookup_fmap. case_decide as Hkk.
    + subst k'. rewrite Hk. simpl. f_equal.
      apply contents_append_eq. by eapply wf_type.
    + destruct (index_by_type s !! k') as [r'|] eqn:Hk'; simpl; [|done].
      f_equal. apply contents_append_ne. intros <-.
      apply Hkk. by eapply wf_type_inj.
Qed.

(** Ingesting one chunk appends it to the full sequence, to the bucket
    of its source and to the bucket of its type, and to nothing else. *)
Lemma add_chunk_spec (c : ContentChunk) (s : state) :
  wf s ->
  wf (snd (add_chunk c s))
  /\ view_chunks (snd (add_chunk c s)) = view_chunks s ++ [c]
  /\ view_by_source (snd (add_chunk c s))
     = <[source c := default [] (view_by_source s !! source c) ++ [c]]>
         (view_by_source s)
  /\ view_by_type (snd (add_chunk c s))
     = <[source_type c := default [] (view_by_type s !! source_type c) ++ [c]]>
         (view_by_type s).
Proof.
  intros Hwf. unfold add_chunk. rewrite !snd_seq.
  destruct (append_to_chunks_spec c s Hwf) as (Hwf1 & Hc1 & Hs1 & Ht1).
  set (s1 := snd (append_to_chunks c s)) in *.
  destruct (ensure_source_bucket_spec (source c) s1 Hwf1)
    as (Hwf2 & Hk2 & Hc2 & Hs2 & Ht2).
  set (s2 := snd (ensure_source_bucket (source c) s1)) in *.
  destruct (append_to_source_bucket_spec (source c) c s2 Hwf2 Hk2)
    as (Hwf3 & Hc3 & Hs3 & Ht3).
  set (s3 := snd (append_to_source_bucket (source c) c s2)) in *.
  destruct (ensure_type_bucket_spec (source_type c) s3 Hwf3)
    as (Hwf4 & Hk4 & Hc4 & Hs4 & Ht4).
  set (s4 := snd (ensure_type_bucket (source_type c) s3)) in *.
  destruct (append_to_type_bucket_spec (source_type c) c s4 Hwf4 Hk4)
    as (Hwf5 & Hc5 & Hs5 & Ht5).
  split; [done|]. split; [congruence|]. split.
  - rewrite Hs5, Hs4, Hs3, Hs2, Hs1.
    rewrite lookup_insert_eq. simpl. by rewrite insert_insert_eq.
  - rewrite Ht5, Ht4, Ht3, Ht2, Ht1.
    rewrite lookup_insert_eq. simpl. by rewrite insert_insert_eq.
Qed.

Lemma add_chunks_cons (c : ContentChunk) (new : list ContentChunk) (s : state) :
  snd (add_chunks (c :: new) s) = snd (add_chunks new (snd (add_chunk c s))).
Proof. unfold add_chunks. simpl. apply snd_seq. Qed.

(** Ingesting a batch keeps the index well formed and appends the
    batch, in order, to the full sequence. *)
Lemma add_chunks_spec (new : list ContentChunk) (s : state) :
  wf s ->
  wf (snd (add_chunks new s))
  /\ view_chunks (snd (add_chunks new s)) = view_chunks s ++ new.
Proof.
  revert s. induction new as [|c new IH]; intros s Hwf.
  - simpl. by rewrite app_nil_r.
  - rewrite add_chunks_cons.
    destruct (add_chunk_spec c s Hwf) as (Hwf1 & Hc1 & _).
    destruct (IH _ Hwf1) as (Hwf2 & Hc2).
    split; [done|]. rewrite Hc2, Hc1. by rewrite <- app_assoc.
Qed.

End IndexWrites.

(** ** The content index: search and purity of the reads *)

Section IndexSearch.

Import ContentProcessor ContentIndex Spec Examples.

Lemma wf_index_abc : wf index_abc.
Proof. apply add_chunks_spec, wf_init. Qed.

(** The chunks [search_chunks] returns, before truncation: the
    candidates with a positive score, in descending stable order. *)
Lemma search_chunks_ranked (query : str) (source_types : option (list string))
    (max_results : Z) (s : state) :
  wf s ->
  fst (search_chunks query source_types max_results s)
  = slice_to
      (sort_reverse (chunk_score query)
         (filter (fun c => (0 < chunk_score query c)%Q) (candidates s source_types)))
      max_results.
Proof.
  intros Hwf.
  destruct (search_chunks_eq query source_types max_results s Hwf) as (s' & -> & _).
  simpl. rewrite score_chunks_eq. simpl.
  rewrite sort_reverse_pair, slice_to_map.
  rewrite map_map. simpl. rewrite map_id.
  rewrite (sort_reverse_ext _ (chunk_score query)).
  2:{ intros c. apply calculate_relevance_score_spec. }
  f_equal. f_equal. apply list_filter_iff. intros c.
  rewrite Qltb_lt. unfold chunk_score.
  by rewrite calculate_relevance_score_spec.
Qed.

(** C7: every candidate chunk is scored by the formula of the
    specification ([chunk_score]); the result is a truncation to
    [max_results] of a list [ranked] that holds exactly the candidates
    with a positive score, is in descending order of score, and keeps
    candidates of equal score in scan order.  For the query
    "file error" over an index holding A, B, C the scores are 6, 3 and
    0 and the result is [A; B]. *)
Theorem search_chunks_ranks_by_score (s : state) (query : str)
    (source_types : option (list string)) (max_results : Z) :
  wf s ->
  (exists ranked,
      fst (search_chunks query source_types max_results s)
      = slice_to ranked max_results
      /\ (0 <= max_results ->
          fst (search_chunks query source_types max_results s)
          = take (Z.to_nat max_results) ranked)
      /\ ranked ≡ₚ filter (fun c => (0 < chunk_score query c)%Q)
                     (candidates s source_types)
      /\ StronglySorted
           (fun a b => (chunk_score query b <= chunk_score query a)%Q) ranked
      /\ forall v,
           filter (fun c => (chunk_score query c == v)%Q) ranked
           = filter (fun c => (chunk_score query c == v)%Q)
               (filter (fun c => (0 < chunk_score query c)%Q)
                  (candidates s source_types)))
  /\ (view_chunks index_abc = [chunkA; chunkB; chunkC]
      /\ (chunk_score (lit "file error") chunkA == 6)%Q
      /\ (chunk_score (lit "file error") chunkB == 3)%Q
      /\ (chunk_score (lit "file error") chunkC == 0)%Q
      /\ fst (search_chunks (lit "file error") None 10 index_abc)
         = [chunkA; chunkB]).
Proof.
  intros Hwf. split.
  - eexists. split; [by apply search_chunks_ranked|].
    split.
    { intros Hm. rewrite search_chunks_ranked by done. by apply slice_to_take. }
    split; [apply sort_reverse_perm|].
    split; [apply sort_reverse_sorted|].
    intros v. apply sort_reverse_stable.
  - split; [by vm_compute|].
    split; [by vm_compute|]. split; [by vm_compute|]. split; [by vm_compute|].
    by vm_compute.
Qed.

(** The ranking property at the index holding A, B, C. *)
Lemma search_chunks_ranks_by_score_witness :
  wf index_abc
  /\ ((exists ranked,
          fst (search_chunks (lit "file error") None 10 index_abc)
          = slice_to ranked 10
          /\ (0 <= 10 ->
              fst (search_chunks (lit "file error") None 10 index_abc)
              = take (Z.to_nat 10) ranked)
          /\ ranked ≡ₚ filter (fun c => (0 < chunk_score (lit "file error") c)%Q)
                         (candidates index_abc None)
          /\ StronglySorted
               (fun a b => (chunk_score (lit "file error") b
                            <= chunk_score (lit "file error") a)%Q) ranked
          /\ forall v,
               filter (fun c => (chunk_score (lit "file error") c == v)%Q) ranked
               = filter (fun c => (chunk_score (lit "file error") c == v)%Q)
                   (filter (fun c => (0 < chunk_score (lit "file error") c)%Q)
                      (candidates index_abc None)))
      /\ (view_chunks index_abc = [chunkA; chunkB; chunkC]
          /\ (chunk_score (lit "file error") chunkA == 6)%Q
          /\ (chunk_score (lit "file error") chunkB == 3)%Q
          /\ (chunk_score (lit "file error") chunkC == 0)%Q
          /\ fst (search_chunks (lit "file error") None 10 index_abc)
             = [chunkA; chunkB])).
Proof.
  split; [exact wf_index_abc|].
  apply (search_chunks_ranks_by_score index_abc (lit "file error") None 10).
  exact wf_index_abc.
Defined.

Lemma get_bucket_extends (index : gmap string loc) (k : string) (s : state) :
  (forall r, index !! k = Some r -> r ∈ dom (store s)) ->
  extends s (snd (get_bucket index k s)).
Proof. intros H. by destruct (get_bucket_spec index k s H) as (? & _). Qed.

(** The bucket lookups return the bucket, or an empty list when the
    key is absent. *)
Lemma get_chunks_by_source_result (source : string) (s : state) :
  wf s ->
  contents (snd (get_chunks_by_source source s)) (fst (get_chunks_by_source source s))
  = default [] (view_by_source s !! source).
Proof.
  intros Hwf. unfold get_chunks_by_source, bind, get_self.
  destruct (get_bucket_spec (index_by_source s) source s) as (_ & _ & -> & _).
  { intros r Hr. by eapply wf_source. }
  unfold view_by_source. by rewrite lookup_fmap.
Qed.

Lemma get_chunks_by_type_result (source_type : string) (s : state) :
  wf s ->
  contents (snd (get_chunks_by_type source_type s))
           (fst (get_chunks_by_type source_type s))
  = default [] (view_by_type s !! source_type).
Proof.
  intros Hwf. unfold get_chunks_by_type, bind, get_self.
  destruct (get_bucket_spec (index_by_type s) source_type s) as (_ & _ & -> & _).
  { intros r Hr. by eapply wf_type. }
  unfold view_by_type. by rewrite lookup_fmap.
Qed.

(** Every state a program can reach is well formed. *)
Lemma reachable_wf (s : state) : reachable s -> wf s.
Proof.
  induction 1 as [|s new _ IH|s query source_types max_results _ IH
                  |s source _ IH|s source_type _ IH|s _ IH].
  - apply wf_init.
  - by apply add_chunks_spec.
  - destruct (search_chunks_eq query source_types max_results s IH)
      as (s' & -> & Hext).
    by eapply extends_wf.
  - eapply extends_wf; [done|]. unfold get_chunks_by_source, bind, get_self.
    apply get_bucket_extends. intros r Hr. by eapply wf_source.
  - eapply extends_wf; [done|]. unfold get_chunks_by_type, bind, get_self.
    apply get_bucket_extends. intros r Hr. by eapply wf_type.
  - done.
Qed.

(** C10: in every well-formed index state, [search_chunks],
    [get_chunks_by_source], [get_chunks_by_type] and [get_stats] leave
    the full chunk sequence, the by-source buckets and the by-type
    buckets exactly as they were (and the state well formed), whereas
    [add_chunks] appends its batch to the full sequence. *)
Theorem reads_leave_index_unchanged (s : state) :
  wf s ->
  (forall query source_types max_results,
      same_views s (snd (search_chunks query source_types max_results s))
      /\ wf (snd (search_chunks query source_types max_results s)))
  /\ (forall source,
        same_views s (snd (get_chunks_by_source source s))
        /\ wf (snd (get_chunks_by_source source s)))
  /\ (forall source_type,
        same_views s (snd (get_chunks_by_type source_type s))
        /\ wf (snd (get_chunks_by_type source_type s)))
  /\ (same_views s (snd (get_stats s)) /\ wf (snd (get_stats s)))
  /\ (forall new, view_chunks (snd (add_chunks new s)) = view_chunks s ++ new).
Proof.
  intros Hwf.
  assert (forall s', extends s s' -> same_views s s' /\ wf s') as Hread.
  { intros s' Hext. split; [by apply extends_same_views|by eapply extends_wf]. }
  split; [|split; [|split; [|split]]].
  - intros query source_types max_results.
    destruct (search_chunks_eq query source_types max_results s Hwf)
      as (s' & -> & Hext).
    by apply Hread.
  - intros source. apply Hread. unfold get_chunks_by_source, bind, get_self.
    apply get_bucket_extends. intros r Hr. by eapply wf_source.
  - intros source_type. apply Hread. unfold get_chunks_by_type, bind, get_self.
    apply get_bucket_extends. intros r Hr. by eapply wf_type.
  - apply Hread. unfold get_stats, bind, get_self, deref, ret. simpl.
    apply extends_refl.
  - intros new. by apply add_chunks_spec.
Qed.

(** Purity of the reads at the index holding A, B, C. *)
Lemma reads_leave_index_unchanged_witness :
  wf index_abc
  /\ (forall query source_types max_results,
        same_views index_abc
          (snd (search_chunks query source_types max_results index_abc))
        /\ wf (snd (search_chunks query source_types max_results index_abc)))
  /\ (forall source,
        same_views index_abc (snd (get_chunks_by_source source index_abc))
        /\ wf (snd (get_chunks_by_source source index_abc)))
  /\ (forall source_type,
        same_views index_abc (snd (get_chunks_by_type source_type index_abc))
        /\ wf (snd (get_chunks_by_type source_type index_abc)))
  /\ (same_views index_abc (snd (get_stats index_abc))
      /\ wf (snd (get_stats index_abc)))
  /\ (forall new,
        view_chunks (snd (add_chunks new index_abc))
        = view_chunks index_abc ++ new).
Proof.
  split; [exact wf_index_abc|].
  apply (reads_leave_index_unchanged index_abc). exact wf_index_abc.
Defined.

End IndexSearch.

(** * Further properties *)

(** ** The chunker: shape of the chunks *)

Section ChunkShape.

Import ContentProcessor Spec Notions.

Variables (self : t) (text : str) (source source_type : string).
Variable md : option (gmap string value).

(** The scan either keeps the candidate or returns the index after a
    position past the window start. *)
Lemma boundary_scan_cases (ss se : Z) (endings : list str) (best : Z) :
  boundary_scan text ss se endings best = best
  \/ exists pos, ss < pos /\ boundary_scan text ss se endings best = pos + 1.
Proof.
  induction endings as [|ending rest IH]; simpl; [by left|].
  destruct (Z.ltb_spec ss (rfind text ending ss se)); [|done].
  right. by eexists.
Qed.

(** A window ends at its candidate end, or less than 100 before it. *)
Lemma window_end_lower (start : Z) :
  window_end self text start = start + chunk_size self
  \/ start + chunk_size self - 100 + 1 < window_end self text start.
Proof.
  unfold window_end.
  destruct (Z.ltb_spec (start + chunk_size self) (len text)); [|by left].
  unfold _find_sentence_boundary.
  destruct (boundary_scan_cases
              (Z.max start (start + chunk_size self - 100))
              (Z.min (len text) (start + chunk_size self + 100))
              sentence_endings (start + chunk_size self))
    as [->|(pos & Hpos & ->)].
  - left. by destruct (start <? start + chunk_size self).
  - destruct (Z.ltb_spec start (pos + 1)); [right; lia|by left].
Qed.

(** A window ends at most 100 after its candidate end. *)
Lemma window_end_upper (start : Z) :
  0 <= start -> 1 <= chunk_size self ->
  window_end self text start <= start + chunk_size self + 100.
Proof.
  intros Hs HC. unfold window_end.
  destruct (Z.ltb_spec (start + chunk_size self) (len text)); [|lia].
  unfold _find_sentence_boundary. pose proof (len_nonneg text).
  destruct (boundary_scan_spec text
              (Z.max start (start + chunk_size self - 100))
              (Z.min (len text) (start + chunk_size self + 100))
              sentence_endings (start + chunk_size self)
              ltac:(lia) ltac:(lia) sentence_endings_nonempty)
    as [[_ ->]|(pre & ending & post & p & Heq & _ & Hlast & _ & ->)].
  - destruct (start <? start + chunk_size self); lia.
  - destruct Hlast as (_ & Hp & _ & _).
    assert (ending <> []) as Hne.
    { pose proof sentence_endings_nonempty as Hall. rewrite Heq in Hall.
      apply Forall_app in Hall as [_ Hall]. by apply Forall_cons in Hall as [? _]. }
    assert (0 < len ending).
    { unfold len. destruct ending; [done|]. simpl. lia. }
    destruct (start <? p + 1); lia.
Qed.

(** What the loop appends: the chunk of a window inside the text, with
    a non-empty trimmed content, numbered by its position. *)
Lemma chunk_loop_emitted (fuel : nat) (start : Z) (chunks r : list ContentChunk) :
  1 <= chunk_size self -> 0 <= start ->
  chunk_loop fuel self text source source_type md start chunks = Some r ->
  exists new,
    r = chunks ++ new
    /\ forall i c, new !! i = Some c ->
         exists s e,
           start <= s < len text /\ s < e <= s + chunk_size self + 100
           /\ strip (slice text s e) <> []
           /\ c = window_chunk text source source_type md
                    (len chunks + Z.of_nat i) s e.
Proof.
  intros HC. revert start chunks.
  induction fuel as [|fuel IH]; intros start chunks Hstart; simpl.
  - destruct (Z.ltb_spec start (len text)); [done|]. intros [= <-].
    exists []. rewrite app_nil_r. split; [done|]. intros i c Hi.
    by rewrite lookup_nil in Hi.
  - destruct (Z.ltb_spec start (len text)) as [Hlt|Hge].
    2:{ intros [= <-]. exists []. rewrite app_nil_r. split; [done|].
        intros i c Hi. by rewrite lookup_nil in Hi. }
    pose proof (window_end_gt self text start HC) as Hgt.
    pose proof (window_end_upper start Hstart HC) as Hup.
    set (end_ := window_end self text start) in *.
    intros Hloop. apply IH in Hloop as (new' & -> & Hnew); [|lia].
    destruct (truthy (strip (slice text start end_))) eqn:Hpiece.
    + eexists (_ :: new'). split; [by rewrite <- app_assoc|].
      intros [|i] c; simpl.
      * intros [= <-]. exists start, end_. apply truthy_true in Hpiece.
        repeat split; try lia; try done.
        unfold window_chunk. by rewrite Z.add_0_r.
      * intros Hi. destruct (Hnew i c Hi) as (s & e & Hs & He & Hne & ->).
        exists s, e. repeat split; try lia; try done.
        f_equal. rewrite len_app. unfold len. simpl. lia.
    + exists new'. split; [done|]. intros i c Hi.
      destruct (Hnew i c Hi) as (s & e & Hs & He & Hne & ->).
      exists s, e. repeat split; try lia; done.
Qed.

End ChunkShape.
